(** * DemonLord-Versions: the release list's ordering engine (app.js)

    A shallow embedding of the sorting and filtering core of [app.js]:
    the field normalizers [toDate] and [toBuild], [looksLikeSemver],
    the version comparator [cmpSemver], the [sorters] table,
    [pickDefaultSort], and the three operations on the session state
    ([applyFilter], [setSort], [load]); and of [escapeHtml] and of
    [render], as the two strings it writes to the page.

    The parts of the JavaScript runtime the code relies on are modelled
    in the module [Js]:
    - numbers are [Js.num]: NaN, the two infinities, or a finite value
      held as an exact rational.  Results of [Number] and [parseInt] are
      rounded to the nearest binary64 value.  Subtraction keeps the exact
      difference: for two doubles the IEEE result has the same sign and is
      zero exactly when the difference is, and the code looks at nothing
      else;
    - strings are sequences of code units below 256 ([String.string]),
      the Latin-1 range; [toLowerCase], [trim] and the relational
      operators are the runtime's on that range;
    - [Array.prototype.sort] is stable and reads a NaN from the
      comparator as zero.

    Records are those of the data model as JSON delivers them: text
    fields, lists of text, and a number or a text for the build; each
    of them may be absent ([undefined] to the code) or [null].

    The DOM is left out but for what [render] writes; [encodeURI] is
    the host's; fetching and decoding of [versions.json] are outside:
    [load] starts from the decoded array. *)

From Stdlib Require Import ZArith QArith List String Ascii Bool Lia.
From Stdlib Require Import Permutation Sorted.
From Stdlib Require Qcanon.
Import ListNotations.

Local Open Scope Z_scope.

(* ================================================================== *)
(** * The JavaScript runtime *)
(* ================================================================== *)

Module Js.

(** ** Numbers *)

Inductive num : Type :=
| NaN
| NegInf
| PosInf
| Fin (q : Q).

(** [Number.isFinite] *)
Definition isFinite (n : num) : bool :=
  match n with Fin _ => true | _ => false end.

(** [a - b] *)
Definition sub (a b : num) : num :=
  match a, b with
  | NaN, _ | _, NaN => NaN
  | PosInf, PosInf | NegInf, NegInf => NaN
  | PosInf, _ => PosInf
  | NegInf, _ => NegInf
  | Fin _, PosInf => NegInf
  | Fin _, NegInf => PosInf
  | Fin x, Fin y => Fin (x - y)
  end.

(** [a * -1] *)
Definition negate (a : num) : num :=
  match a with
  | NaN => NaN
  | PosInf => NegInf
  | NegInf => PosInf
  | Fin x => Fin (- x)
  end.

(** [ToBoolean] on a number: NaN and the zeros are falsy. *)
Definition truthy (a : num) : bool :=
  match a with
  | NaN => false
  | Fin x => negb (Qeq_bool x 0)
  | _ => true
  end.

(** [a || b] on numbers *)
Definition or (a b : num) : num := if truthy a then a else b.

(** [a !== b] on numbers: NaN differs from everything, itself included. *)
Definition strict_neq (a b : num) : bool :=
  match a, b with
  | Fin x, Fin y => negb (Qeq_bool x y)
  | PosInf, PosInf | NegInf, NegInf => false
  | _, _ => true
  end.

(** How [Array.prototype.sort] reads a comparator's result
    (SortCompare: a NaN counts as +0). *)
Definition sign (a : num) : comparison :=
  match a with
  | NaN => Eq
  | NegInf => Lt
  | PosInf => Gt
  | Fin x => (x ?= 0)%Q
  end.

Definition of_Z (z : Z) : num := Fin (inject_Z z).

(** *** Rounding to binary64

    [round_ratio a b] is the double nearest to [a / b] for [a >= 0] and
    [b > 0], ties to even; values of magnitude [2^1024] and above after
    rounding are infinite. *)

Definition div_half_even (a b : Z) : Z :=
  let q := a / b in
  match 2 * (a mod b) ?= b with
  | Lt => q
  | Gt => q + 1
  | Eq => if Z.even q then q else q + 1
  end.

(** [a / b >= 2^k] *)
Definition ge_pow2 (a b k : Z) : bool :=
  if 0 <=? k then b * 2 ^ k <=? a else b <=? a * 2 ^ (- k).

Definition round_ratio (neg : bool) (a b : Z) : num :=
  if a =? 0 then Fin 0 else
  let e0 := Z.log2 a - Z.log2 b in
  let fl := if ge_pow2 a b e0 then e0 else e0 - 1 in
  let e := Z.max (fl - 52) (- 1074) in
  let m := if 0 <=? e then div_half_even a (b * 2 ^ e)
           else div_half_even (a * 2 ^ (- e)) b in
  if (0 <=? e) && (2 ^ 1024 <=? m * 2 ^ e) then
    (if neg then NegInf else PosInf)
  else
    let v := if 0 <=? e then inject_Z (m * 2 ^ e)
             else Qred (Qmake m (Z.to_pos (2 ^ (- e)))) in
    Fin (if neg then (- v)%Q else v).

(** ** Characters and strings *)

Definition code (c : ascii) : Z := Z.of_N (N_of_ascii c).

Definition is_digit (c : ascii) : bool := (48 <=? code c) && (code c <=? 57).

Definition is_alpha (c : ascii) : bool :=
  ((65 <=? code c) && (code c <=? 90)) || ((97 <=? code c) && (code c <=? 122)).

(** White space and line terminators, as [trim], [Number] and [parseInt]
    skip them: TAB, LF, VT, FF, CR, SP and the no-break space. *)
Definition is_space (c : ascii) : bool :=
  ((9 <=? code c) && (code c <=? 13)) || (code c =? 32) || (code c =? 160).

(** The letters that have a lower case: A to Z, and the capital letters
    of Latin-1 (192 to 222 without the multiplication sign 215). *)
Definition is_upper (c : ascii) : bool :=
  ((65 <=? code c) && (code c <=? 90))
  || ((192 <=? code c) && (code c <=? 222) && negb (code c =? 215)).

Definition lower_char (c : ascii) : ascii :=
  if is_upper c then ascii_of_N (N_of_ascii c + 32) else c.

(** [s.toLowerCase()] *)
Fixpoint toLowerCase (s : string) : string :=
  match s with
  | EmptyString => EmptyString
  | String c s' => String (lower_char c) (toLowerCase s')
  end.

Fixpoint trimStart (s : string) : string :=
  match s with
  | EmptyString => EmptyString
  | String c s' => if is_space c then trimStart s' else s
  end.

(** Drops the white space at the end: a character is kept when it is not
    a space or when something is kept after it. *)
Fixpoint trimEnd (s : string) : string :=
  match s with
  | EmptyString => EmptyString
  | String c s' =>
      match trimEnd s' with
      | EmptyString => if is_space c then EmptyString else String c EmptyString
      | t => String c t
      end
  end.

(** [s.trim()] *)
Definition trim (s : string) : string := trimEnd (trimStart s).

(** [h.includes(q)] *)
Fixpoint includes (h q : string) : bool :=
  prefix q h ||
  match h with
  | EmptyString => false
  | String _ h' => includes h' q
  end.

(** [s.split(sep)] for a one-character separator: never empty, the empty
    string splits into one empty piece. *)
Fixpoint split (sep : ascii) (s : string) : list string :=
  match s with
  | EmptyString => [EmptyString]
  | String c s' =>
      if Ascii.eqb c sep then EmptyString :: split sep s'
      else match split sep s' with
           | [] => [String c EmptyString]
           | p :: ps => String c p :: ps
           end
  end.

(** [xs.join(' ')] on strings *)
Definition join (xs : list string) : string := String.concat " " xs.

(** [a < b] on strings: code units, lexicographically. *)
Definition str_lt (a b : string) : bool := String.ltb a b.

(** [ToBoolean] on a string *)
Definition nonempty (s : string) : bool :=
  match s with EmptyString => false | _ => true end.

(** ** Digits *)

Definition digit_val (c : ascii) : Z := code c - 48.

Fixpoint take_while (p : ascii -> bool) (s : string) : string :=
  match s with
  | EmptyString => EmptyString
  | String c s' => if p c then String c (take_while p s') else EmptyString
  end.

Fixpoint drop_while (p : ascii -> bool) (s : string) : string :=
  match s with
  | EmptyString => EmptyString
  | String c s' => if p c then drop_while p s' else s
  end.

Fixpoint all_chars (p : ascii -> bool) (s : string) : bool :=
  match s with
  | EmptyString => true
  | String c s' => p c && all_chars p s'
  end.

(** The value of a string of digits in base [base]. *)
Fixpoint digits_acc (base : Z) (val : ascii -> Z) (acc : Z) (s : string) : Z :=
  match s with
  | EmptyString => acc
  | String c s' => digits_acc base val (acc * base + val c) s'
  end.

Definition decimal (s : string) : Z := digits_acc 10 digit_val 0 s.

(** The decimal digits of a natural number, before [acc]. *)
Fixpoint pos_digits (fuel : nat) (n : Z) (acc : string) : string :=
  match fuel with
  | O => acc
  | S f =>
      let acc' := String (ascii_of_N (Z.to_N (48 + n mod 10))) acc in
      if n <? 10 then acc' else pos_digits f (n / 10) acc'
  end.

(** [String(n)] for an integer [n] of at most 2^53 in size, the range
    in which every integer is a double of its own: its decimal digits,
    after a minus sign when it is negative. *)
Definition string_of_Z (z : Z) : string :=
  let d := pos_digits (S (Z.to_nat (Z.log2 (Z.abs z)))) (Z.abs z) EmptyString in
  if z <? 0 then String "-" d else d.

(** ** [parseInt(s, 10)] *)

Definition strip_sign (s : string) : bool * string :=
  match s with
  | String "-" s' => (true, s')
  | String "+" s' => (false, s')
  | _ => (false, s)
  end.

Definition parseInt10 (s : string) : num :=
  let (neg, body) := strip_sign (trimStart s) in
  let ds := take_while is_digit body in
  if nonempty ds then round_ratio neg (decimal ds) 1 else NaN.

(** ** [Number(s)] on a string (StringToNumber) *)

Definition is_hex (c : ascii) : bool :=
  is_digit c || ((65 <=? code c) && (code c <=? 70))
             || ((97 <=? code c) && (code c <=? 102)).
Definition hex_val (c : ascii) : Z :=
  if is_digit c then code c - 48
  else if code c <=? 70 then code c - 55 else code c - 87.
Definition is_octal (c : ascii) : bool := (48 <=? code c) && (code c <=? 55).
Definition is_binary (c : ascii) : bool := (48 <=? code c) && (code c <=? 49).

Definition radix_literal (base : Z) (ok : ascii -> bool) (val : ascii -> Z)
  (ds : string) : num :=
  if nonempty ds && all_chars ok ds
  then round_ratio false (digits_acc base val 0 ds) 1 else NaN.

(** The exponent part, when the literal has one: [e] or [E], an optional
    sign, at least one digit, and nothing after. *)
Definition exponent (s : string) : option Z :=
  match s with
  | EmptyString => Some 0
  | String c s' =>
      if Ascii.eqb c "e" || Ascii.eqb c "E" then
        let (neg, ds) := strip_sign s' in
        if nonempty ds && all_chars is_digit ds
        then Some (if neg then - decimal ds else decimal ds) else None
      else None
  end.

Definition decimal_literal (s : string) : num :=
  let (neg, body) := strip_sign s in
  if String.eqb body "Infinity" then (if neg then NegInf else PosInf) else
  let ip := take_while is_digit body in
  let r1 := drop_while is_digit body in
  let '(fp, r2) :=
    match r1 with
    | String "." r => (take_while is_digit r, drop_while is_digit r)
    | _ => (EmptyString, r1)
    end in
  if nonempty ip || nonempty fp then
    match exponent r2 with
    | Some ex =>
        let m := decimal (ip ++ fp) in
        let k := ex - Z.of_nat (String.length fp) in
        if 0 <=? k then round_ratio neg (m * 10 ^ k) 1
        else round_ratio neg m (10 ^ (- k))
    | None => NaN
    end
  else NaN.

Definition Number_of_string (s : string) : num :=
  let t := trim s in
  match t with
  | EmptyString => Fin 0
  | String "0" (String x ds) =>
      if Ascii.eqb x "x" || Ascii.eqb x "X" then radix_literal 16 is_hex hex_val ds
      else if Ascii.eqb x "o" || Ascii.eqb x "O" then radix_literal 8 is_octal digit_val ds
      else if Ascii.eqb x "b" || Ascii.eqb x "B" then radix_literal 2 is_binary digit_val ds
      else decimal_literal t
  | _ => decimal_literal t
  end.

End Js.

(* ================================================================== *)
(** * Release records *)
(* ================================================================== *)

(** A text field of a record as JSON gives it: [null] or a string. *)
Inductive text_value : Type :=
| TNull
| TStr (s : string).

(** The [build] field of a record: [null], a JSON number (a build
    number: an integer in the range where doubles are exact, which is
    where [Number] and [String] below are the runtime's), or a JSON
    string. *)
Inductive build_value : Type :=
| BNull
| BNum (z : Z)
| BStr (s : string).

(** One entry of [versions.json].  Every field may be absent, which the
    code reads as [undefined].  The lists are read through [|| []] only,
    which takes [null] for an absent list: [None] stands for both. *)
Record release : Type := mkRelease {
  version : option text_value;
  build : option build_value;
  date : option text_value;
  channel : option text_value;
  changes : option (list string);
  links : option (list (string * string));
  tags : option (list string)
}.

(** [Number(b)] for a [build] field: [undefined] is NaN, [null] is 0. *)
Definition Number (b : option build_value) : Js.num :=
  match b with
  | None => Js.NaN
  | Some BNull => Js.of_Z 0
  | Some (BNum z) => Js.of_Z z
  | Some (BStr s) => Js.Number_of_string s
  end.

(** [String(v || '')] for a text field: [undefined] and [null] give
    way to the empty string. *)
Definition text (v : option text_value) : string :=
  match v with
  | Some (TStr s) => s
  | Some TNull | None => EmptyString
  end.

(** What sorting does with the value found under a key of [sorters]
    that is not one of its own arrows.  The table is an object literal:
    [k in sorters] and [sorters[k]] also see the members of
    [Object.prototype].  Sorting calls its comparator with [this]
    undefined and two records. *)
Inductive inherited : Type :=
| ReadsNaN      (* returns an object or a string: read as NaN, hence 0 *)
| ThrowsOnCall  (* starts with ToObject(this): TypeError *)
| NotCallable.  (* not a function: sort refuses it *)

Definition Object_prototype : list (string * inherited) :=
  [ ("constructor", ReadsNaN);
    ("toString", ReadsNaN);
    ("toLocaleString", ThrowsOnCall);
    ("valueOf", ThrowsOnCall);
    ("hasOwnProperty", ThrowsOnCall);
    ("isPrototypeOf", ThrowsOnCall);
    ("propertyIsEnumerable", ThrowsOnCall);
    ("__defineGetter__", ThrowsOnCall);
    ("__defineSetter__", ThrowsOnCall);
    ("__lookupGetter__", ThrowsOnCall);
    ("__lookupSetter__", ThrowsOnCall);
    ("__proto__", NotCallable) ]%string.

Fixpoint assoc {V : Type} (k : string) (t : list (string * V)) : option V :=
  match t with
  | [] => None
  | (k', v) :: t' => if String.eqb k k' then Some v else assoc k t'
  end.

(** ** Stable sorting *)

Section Sorting.

Context {A : Type}.
Variable cmp : A -> A -> Js.num.

(** [x] arrives from the left of [l]: it moves right only past the
    elements it is strictly greater than. *)
Fixpoint insert (x : A) (l : list A) : list A :=
  match l with
  | [] => [x]
  | y :: l' =>
      match Js.sign (cmp x y) with
      | Gt => y :: insert x l'
      | _ => x :: l
      end
  end.

(** The stable sort of [l] by [cmp].  Every stable sort returns this
    list when the comparator is consistent; for other comparators the
    order is the engine's choice. *)
Definition sort_by (l : list A) : list A := fold_right insert [] l.

End Sorting.

(* ================================================================== *)
(** * app.js *)
(* ================================================================== *)

Section App.

(** [Date.parse]: the time value in milliseconds of a date string, or
    nothing for an invalid date.  Outside the ISO format the host
    chooses what it accepts. *)
Variable Date_parse : string -> option Z.

(** [new Date(d).getTime()]: [undefined] is an invalid date, [null]
    is the time value 0, a string is parsed. *)
Definition Date_getTime (d : option text_value) : Js.num :=
  match d with
  | None => Js.NaN
  | Some TNull => Js.of_Z 0
  | Some (TStr s) =>
      match Date_parse s with
      | Some t => Js.of_Z t
      | None => Js.NaN
      end
  end.

(** ** Helpers *)

Definition toDate (d : option text_value) : Js.num :=
  let t := Date_getTime d in
  if Js.isFinite t then t else Js.NegInf.

Definition toBuild (b : option build_value) : Js.num :=
  let n := Number b in
  if Js.isFinite n then n else Js.NegInf.

(** [replace(/^v/i, '')], and the [[vV]?] of the pattern below *)
Definition strip_v (s : string) : string :=
  match s with
  | String c s' => if Ascii.eqb c "v" || Ascii.eqb c "V" then s' else s
  | EmptyString => s
  end.

(** [\d+]: what is left after one or more digits *)
Definition digits1 (s : string) : option string :=
  match s with
  | String c _ => if Js.is_digit c then Some (Js.drop_while Js.is_digit s) else None
  | EmptyString => None
  end.

(** [\.] *)
Definition dot (s : string) : option string :=
  match s with
  | String "." s' => Some s'
  | _ => None
  end.

Definition bind {X Y : Type} (o : option X) (f : X -> option Y) : option Y :=
  match o with
  | Some x => f x
  | None => None
  end.

(** [[0-9A-Za-z.-]] *)
Definition pre_char (c : ascii) : bool :=
  Js.is_digit c || Js.is_alpha c || Ascii.eqb c "." || Ascii.eqb c "-".

(** [(?:-[0-9A-Za-z.-]+)?$] *)
Definition suffix (s : string) : bool :=
  match s with
  | EmptyString => true
  | String "-" s' => Js.nonempty s' && Js.all_chars pre_char s'
  | _ => false
  end.

(** [/^[vV]?\d+\.\d+\.\d+(?:-[0-9A-Za-z.-]+)?$/.test(String(v || ''))] *)
Definition looksLikeSemver (v : option text_value) : bool :=
  match bind (bind (bind (bind (digits1 (strip_v (text v))) dot) digits1) dot) digits1 with
  | Some rest => suffix rest
  | None => false
  end.

(** ** Semver compare *)

Record parsed : Type := mkParsed { n : list Js.num; pre : string }.

(** [nums[i] || 0] *)
Definition at_or0 (nums : list Js.num) (i : nat) : Js.num :=
  match nth_error nums i with
  | Some x => Js.or x (Js.Fin 0)
  | None => Js.Fin 0
  end.

(** The inner [parse] of [cmpSemver]: [core] and [pre] are the first
    two pieces of the split, [pre] defaulting to the empty string. *)
Definition parse (v : option text_value) : parsed :=
  let pieces := Js.split "-" (strip_v (text v)) in
  let core := nth 0 pieces EmptyString in
  let pre := nth 1 pieces EmptyString in
  let nums := map (fun n => Js.or (Js.parseInt10 n) (Js.Fin 0)) (Js.split "." core) in
  {| n := [at_or0 nums 0; at_or0 nums 1; at_or0 nums 2]; pre := pre |}.

(** The loop over the three numbers: the first pair that differs
    decides. *)
Fixpoint first_diff (xs ys : list Js.num) : option Js.num :=
  match xs, ys with
  | x :: xs', y :: ys' =>
      if Js.strict_neq x y then Some (Js.sub x y) else first_diff xs' ys'
  | _, _ => None
  end.

Definition cmpSemver (a b : option text_value) : Js.num :=
  let A := parse a in
  let B := parse b in
  match first_diff (n A) (n B) with
  | Some d => d
  | None =>
      if Js.nonempty (pre A) && negb (Js.nonempty (pre B)) then Js.of_Z (-1)
      else if negb (Js.nonempty (pre A)) && Js.nonempty (pre B) then Js.of_Z 1
      else if Js.str_lt (pre A) (pre B) then Js.of_Z (-1)
      else if Js.str_lt (pre B) (pre A) then Js.of_Z 1
      else Js.of_Z 0
  end.

(** ** Sorters *)

Definition comparator : Type := release -> release -> Js.num.

Definition build_desc : comparator := fun a b =>
  Js.or (Js.sub (toBuild (build b)) (toBuild (build a)))
    (Js.or (Js.sub (toDate (date b)) (toDate (date a)))
       (cmpSemver (version b) (version a))).

Definition build_asc : comparator := fun a b =>
  Js.or (Js.sub (toBuild (build a)) (toBuild (build b)))
    (Js.or (Js.sub (toDate (date a)) (toDate (date b)))
       (cmpSemver (version a) (version b))).

Definition semver_desc : comparator := fun a b =>
  Js.or (Js.negate (cmpSemver (version a) (version b)))
    (Js.sub (toDate (date b)) (toDate (date a))).

Definition semver_asc : comparator := fun a b =>
  Js.or (cmpSemver (version a) (version b))
    (Js.sub (toDate (date a)) (toDate (date b))).

Definition date_desc : comparator := fun a b =>
  Js.or (Js.sub (toDate (date b)) (toDate (date a)))
    (Js.sub (toBuild (build b)) (toBuild (build a))).

Definition date_asc : comparator := fun a b =>
  Js.or (Js.sub (toDate (date a)) (toDate (date b)))
    (Js.sub (toBuild (build a)) (toBuild (build b))).

(** The own properties of [sorters]: the comparator registry. *)
Definition sorters : list (string * comparator) :=
  [ ("build-desc", build_desc);
    ("build-asc", build_asc);
    ("semver-desc", semver_desc);
    ("semver-asc", semver_asc);
    ("date-desc", date_desc);
    ("date-asc", date_asc) ]%string.

(** What [sorters[k]] evaluates to. *)
Inductive property : Type :=
| Own (c : comparator)
| Inherited (m : inherited)
| Undefined.

Definition sorters_get (k : string) : property :=
  match assoc k sorters with
  | Some c => Own c
  | None =>
      match assoc k Object_prototype with
      | Some m => Inherited m
      | None => Undefined
      end
  end.

(** [k in sorters] *)
Definition in_sorters (k : string) : bool :=
  match sorters_get k with
  | Undefined => false
  | _ => true
  end.

(** [xs.sort(f)] on an array of records, [None] for a TypeError.
    Without a comparator the elements are compared as strings, and
    every record prints as [[object Object]]: nothing moves.  A member
    that throws is called as soon as there are two elements. *)
Definition Array_sort (f : property) (xs : list release) : option (list release) :=
  match f with
  | Own c => Some (sort_by c xs)
  | Undefined => Some xs
  | Inherited ReadsNaN => Some xs
  | Inherited ThrowsOnCall => if (List.length xs <? 2)%nat then Some xs else None
  | Inherited NotCallable => None
  end.

(** ** Choose a smart default sort for the dataset *)

Definition pickDefaultSort (arr : list release) : string :=
  let hasNumericBuild := existsb (fun r => Js.isFinite (Number (build r))) arr in
  if hasNumericBuild then "build-desc"%string
  else
    let allLookSemver := forallb (fun r => looksLikeSemver (version r)) arr in
    if allLookSemver then "semver-desc"%string else "date-desc"%string.

(** ** The session state and its three operations *)

Record state : Type := mkState {
  data : list release;
  filtered : list release;
  sort : string
}.

Definition initial : state :=
  {| data := []; filtered := []; sort := "build-desc" |}.

(** An element of the haystack array. *)
Inductive item : Type :=
| IUndef
| INull
| INum (z : Z)
| IStr (s : string).

Definition item_of_text (v : option text_value) : item :=
  match v with
  | Some (TStr s) => IStr s
  | Some TNull => INull
  | None => IUndef
  end.

Definition item_of_build (b : option build_value) : item :=
  match b with
  | Some BNull => INull
  | Some (BNum z) => INum z
  | Some (BStr s) => IStr s
  | None => IUndef
  end.

(** [Boolean] as the filter callback: [undefined], [null], [0] and
    [''] go. *)
Definition Boolean (x : item) : bool :=
  match x with
  | IUndef | INull => false
  | INum z => negb (z =? 0)
  | IStr s => Js.nonempty s
  end.

(** How [join] prints an element. *)
Definition item_string (x : item) : string :=
  match x with
  | IUndef | INull => EmptyString
  | INum z => Js.string_of_Z z
  | IStr s => s
  end.

(** [it.changes || []] *)
Definition or_empty (l : option (list string)) : list string :=
  match l with
  | Some xs => xs
  | None => []
  end.

Definition hay (it : release) : string :=
  Js.toLowerCase
    (Js.join
       (map item_string
          (filter Boolean
             ([ item_of_text (version it); item_of_text (date it);
                item_of_text (channel it); item_of_build (build it) ]
              ++ map IStr (or_empty (changes it))
              ++ map IStr (or_empty (tags it)))))).

(** The callback of [state.data.filter] in [applyFilter]. *)
Definition keeps (q : string) (it : release) : bool :=
  if negb (Js.nonempty q) then true else Js.includes (hay it) q.

Inductive outcome : Type :=
| Done
| TypeError.

(** [applyFilter()], with [value] the text of the filter box. *)
Definition applyFilter (value : string) (st : state) : outcome * state :=
  let q := Js.trim (Js.toLowerCase value) in
  match Array_sort (sorters_get (sort st)) (filter (keeps q) (data st)) with
  | Some l => (Done, {| data := data st; filtered := l; sort := sort st |})
  | None => (TypeError, st)
  end.

(** [setSort(value)]: the key is stored before the view is sorted. *)
Definition setSort (value : string) (st : state) : outcome * state :=
  let k := if in_sorters value then value else sort st in
  match Array_sort (sorters_get k) (filtered st) with
  | Some l => (Done, {| data := data st; filtered := l; sort := k |})
  | None => (TypeError, {| data := data st; filtered := filtered st; sort := k |})
  end.

(** [fromUrl && sorters[fromUrl]] as a condition, with [fromUrl] what
    [params.get('sort')] returns: [None] (null) when the query string
    has no [sort].  Whatever [sorters] holds or inherits is truthy. *)
Definition truthy_key (fromUrl : option string) : bool :=
  match fromUrl with
  | Some k => Js.nonempty k && in_sorters k
  | None => false
  end.

(** [fromUrl] where the condition holds: the string it is. *)
Definition url_key (fromUrl : option string) : string :=
  match fromUrl with
  | Some k => k
  | None => EmptyString
  end.

(** [load()] once [versions.json] is fetched and decoded to [arr].  A
    TypeError raised by the sort is caught: the view stays as it was. *)
Definition load (arr : list release) (fromUrl : option string) (st : state)
  : outcome * state :=
  let k := if truthy_key fromUrl then url_key fromUrl else "build-asc"%string in
  match Array_sort (sorters_get k) arr with
  | Some l => (Done, {| data := arr; filtered := l; sort := k |})
  | None => (TypeError, {| data := arr; filtered := filtered st; sort := k |})
  end.

(** ** Escape user-provided text *)

(** The [map] of [escapeHtml]: the entity of each of the five
    characters its pattern matches (ampersand, the angle brackets, the
    double and the single quote). *)
Definition entity (c : ascii) : option string :=
  if Ascii.eqb c "&" then Some "&amp;"%string
  else if Ascii.eqb c "<" then Some "&lt;"%string
  else if Ascii.eqb c ">" then Some "&gt;"%string
  else if Ascii.eqb c "034" then Some "&quot;"%string
  else if Ascii.eqb c "'" then Some "&#39;"%string
  else None.

(** [str.replace(pattern, s => map[s])] on a string: every match is
    replaced (the pattern is global). *)
Fixpoint escapeHtml (str : string) : string :=
  match str with
  | EmptyString => EmptyString
  | String c str' =>
      match entity c with
      | Some e => (e ++ escapeHtml str')%string
      | None => String c (escapeHtml str')
      end
  end.

(** ** Render *)

(** [encodeURI], the host's. *)
Variable encodeURI : string -> string.

(** A double quote, and a line feed. *)
Definition quote : string := String "034" EmptyString.
Definition newline : string := String "010" EmptyString.

(** [String(x)] for a text field: an absent one prints as
    [undefined], [null] as [null]. *)
Definition String_text (v : option text_value) : string :=
  match v with
  | Some (TStr s) => s
  | Some TNull => "null"%string
  | None => "undefined"%string
  end.

(** [String(b)] for a build that is there. *)
Definition String_build (b : build_value) : string :=
  match b with
  | BNull => "null"%string
  | BNum z => Js.string_of_Z z
  | BStr s => s
  end.

(** One entry of [changes]. *)
Definition render_change (c : string) : string :=
  ("<li>" ++ escapeHtml c ++ "</li>")%string.

(** One entry of [links], a pair of label and url. *)
Definition render_link (l : string * string) : string :=
  ("<a href=" ++ quote ++ encodeURI (snd l) ++ quote
   ++ " target=" ++ quote ++ "_blank" ++ quote
   ++ " rel=" ++ quote ++ "noopener" ++ quote ++ ">"
   ++ escapeHtml (fst l) ++ "</a>")%string.

(** The separator of the links: a middle dot (code unit 183) between
    two spaces. *)
Definition link_separator : string :=
  String " " (String "183" (String " " EmptyString)).

Definition render_changes (it : release) : string :=
  String.concat "" (map render_change (or_empty (changes it))).

Definition render_links (it : release) : string :=
  String.concat link_separator
    (map render_link (match links it with Some l => l | None => [] end)).

(** The build, when [item.build !== undefined && item.build !== null]. *)
Definition shown_build (b : option build_value) : option build_value :=
  match b with
  | Some BNull | None => None
  | Some b' => Some b'
  end.

(** The channel tag, when the channel is a non-empty text, and the
    build badge, when there is a build, joined by a space. *)
Definition render_labels (it : release) : string :=
  Js.join
    [ (if Js.nonempty (text (channel it))
       then ("<span class=" ++ quote ++ "tag" ++ quote
             ++ " title=" ++ quote ++ "Release channel" ++ quote ++ ">"
             ++ escapeHtml (text (channel it)) ++ "</span>")%string
       else EmptyString);
      match shown_build (build it) with
      | Some b =>
          ("<span class=" ++ quote ++ "badge" ++ quote
           ++ " title=" ++ quote ++ "Build number" ++ quote ++ ">Build "
           ++ escapeHtml (String_build b) ++ "</span>")%string
      | None => EmptyString
      end ].

(** The row of one record. *)
Definition render_row (it : release) : string :=
  ("<tr>" ++ newline
   ++ "      <td><strong>" ++ escapeHtml (String_text (version it))
   ++ "</strong> " ++ render_labels it ++ "</td>" ++ newline
   ++ "      <td>" ++ escapeHtml (text (date it)) ++ "</td>" ++ newline
   ++ "      <td>"
   ++ (if Js.nonempty (render_changes it)
       then "<ul class=" ++ quote ++ "changes" ++ quote ++ ">"
            ++ render_changes it ++ "</ul>"
       else "")
   ++ "</td>" ++ newline
   ++ "      <td>" ++ render_links it ++ "</td>" ++ newline
   ++ "    </tr>")%string.

Definition no_matching_releases : string :=
  ("<tr><td colspan=" ++ quote ++ "4" ++ quote
   ++ ">No matching releases.</td></tr>")%string.

(** What [render] writes to the page: the body of the table and the
    status line. *)
Record page : Type := mkPage { tbody : string; status : string }.

Definition render (st : state) : page :=
  let rows := String.concat "" (map render_row (filtered st)) in
  let count := List.length (filtered st) in
  {| tbody := if Js.nonempty rows then rows else no_matching_releases;
     status := (Js.string_of_Z (Z.of_nat count) ++ " release"
                ++ (if (count =? 1)%nat then "" else "s"))%string |}.

End App.

(* ================================================================== *)
(** * A host *)
(* ================================================================== *)

(** A [Date.parse] that reads the ISO date-only form [YYYY-MM-DD] as
    midnight UTC and takes every other string for an invalid date. *)
Module Host.

Definition leap (y : Z) : bool :=
  ((y mod 4 =? 0) && negb (y mod 100 =? 0)) || (y mod 400 =? 0).

Definition days_in_month (y m : Z) : Z :=
  if m =? 2 then (if leap y then 29 else 28)
  else if (m =? 4) || (m =? 6) || (m =? 9) || (m =? 11) then 30 else 31.

(** Days from 1970-01-01 to the given day of the civil calendar. *)
Definition days_from_civil (y m d : Z) : Z :=
  let y' := if m <=? 2 then y - 1 else y in
  let era := y' / 400 in
  let yoe := y' - era * 400 in
  let mp := (m + 9) mod 12 in
  let doy := (153 * mp + 2) / 5 + d - 1 in
  let doe := yoe * 365 + yoe / 4 - yoe / 100 + doy in
  era * 146097 + doe - 719468.

Definition two_digits (a b : ascii) : option Z :=
  if Js.is_digit a && Js.is_digit b
  then Some (Js.digit_val a * 10 + Js.digit_val b) else None.

Definition Date_parse (s : string) : option Z :=
  match s with
  | String y1 (String y2 (String y3 (String y4 (String "-"
      (String m1 (String m2 (String "-" (String d1 (String d2 EmptyString))))))))) =>
      match two_digits y1 y2, two_digits y3 y4, two_digits m1 m2, two_digits d1 d2 with
      | Some yh, Some yl, Some m, Some d =>
          let y := yh * 100 + yl in
          if (1 <=? m) && (m <=? 12) && (1 <=? d) && (d <=? days_in_month y m)
          then Some (days_from_civil y m d * 86400000) else None
      | _, _, _, _ => None
      end
  | _ => None
  end.

(** [encodeURI] on code units below 256: letters, digits and the
    marks [; / ? : @ & = + $ , - _ . ! ~ * ' ( ) #] stay, every other
    code unit becomes the percent-escapes of its UTF-8 bytes. *)
Definition uri_keeps (c : ascii) : bool :=
  Js.is_digit c || Js.is_alpha c ||
  existsb (Ascii.eqb c)
    [";"; "/"; "?"; ":"; "@"; "&"; "="; "+"; "$"; ","; "-"; "_"; ".";
     "!"; "~"; "*"; "'"; "("; ")"; "#"]%char.

Definition hex_digit (n : Z) : ascii :=
  ascii_of_N (Z.to_N (if n <? 10 then 48 + n else 55 + n)).

Definition percent (byte : Z) : string :=
  String "%" (String (hex_digit (byte / 16)) (String (hex_digit (byte mod 16)) EmptyString)).

Definition encode_unit (c : ascii) : string :=
  if uri_keeps c then String c EmptyString
  else if Js.code c <? 128 then percent (Js.code c)
  else (percent (192 + Js.code c / 64) ++ percent (128 + Js.code c mod 64))%string.

Fixpoint encodeURI (s : string) : string :=
  match s with
  | EmptyString => EmptyString
  | String c s' => (encode_unit c ++ encodeURI s')%string
  end.

End Host.

(* ================================================================== *)
(** * Orders, predicates and sample data used to state the properties *)
(* ================================================================== *)

(** ** Three-way comparisons *)

(** The first comparison decides unless it ties. *)
Definition lex (c d : comparison) : comparison :=
  match c with
  | Eq => d
  | _ => c
  end.

(** A three-way comparison of a total preorder. *)
Record order_cmp {A : Type} (f : A -> A -> comparison) : Prop := {
  cmp_anti : forall x y, f y x = CompOpp (f x y);
  cmp_eq : forall x y z, f x y = Eq -> f x z = f y z;
  cmp_lt : forall x y z, f x y = Lt -> f y z = Lt -> f x z = Lt
}.

(** The order of the values a key can take: NaN below everything (no
    key is NaN), then negative infinity, the finite values, and positive
    infinity. *)
Definition ncmp (a b : Js.num) : comparison :=
  match a, b with
  | Js.Fin x, Js.Fin y => (x ?= y)%Q
  | Js.NaN, Js.NaN => Eq
  | Js.NaN, _ => Lt
  | _, Js.NaN => Gt
  | Js.NegInf, Js.NegInf => Eq
  | Js.NegInf, _ => Lt
  | _, Js.NegInf => Gt
  | Js.PosInf, Js.PosInf => Eq
  | Js.PosInf, _ => Gt
  | _, Js.PosInf => Lt
  end.

(** [false] before [true] *)
Definition bool_cmp (a b : bool) : comparison :=
  match a, b with
  | false, true => Lt
  | true, false => Gt
  | _, _ => Eq
  end.

(** ** Comparators and sorted lists *)

(** A comparator is consistent when the signs it returns, NaN read as
    zero, are those of a total preorder.  [Array.prototype.sort] fixes
    the result for such comparators only. *)
Definition consistent {A : Type} (cmp : A -> A -> Js.num) : Prop :=
  order_cmp (fun x y => Js.sign (cmp x y)).

(** [cmp] does not separate [x] and [y]. *)
Definition ties {A : Type} (cmp : A -> A -> Js.num) (x y : A) : bool :=
  match Js.sign (cmp x y) with
  | Eq => true
  | _ => false
  end.

(** [x] may stand before [y]. *)
Definition in_order {A : Type} (cmp : A -> A -> Js.num) (x y : A) : Prop :=
  Js.sign (cmp x y) <> Gt.

(** No element stands before one it should follow. *)
Definition sorted {A : Type} (cmp : A -> A -> Js.num) (l : list A) : Prop :=
  StronglySorted (in_order cmp) l.

(** [v] holds the elements of [l], and whatever [cmp] ties stands in
    [v] in the order it has in [l]. *)
Definition same_classes {A : Type} (cmp : A -> A -> Js.num) (l v : list A) : Prop :=
  Permutation v l /\
  forall x, In x l -> filter (ties cmp x) v = filter (ties cmp x) l.

(** ** Versions and records *)

(** The order [cmpSemver] puts on pre-release fields: a version that
    carries one stands before a version without, two of them compare as
    strings. *)
Definition pre_cmp (p q : string) : comparison :=
  lex (bool_cmp (negb (Js.nonempty p)) (negb (Js.nonempty q))) (String.compare p q).

(** The [i]-th number of a parsed version. *)
Definition component (i : nat) (P : parsed) : Js.num := nth i (n P) (Js.Fin 0).

(** Major, minor and patch in turn, then the pre-release fields. *)
Definition version_cmp (P Q : parsed) : comparison :=
  lex (ncmp (component 0 P) (component 0 Q))
    (lex (ncmp (component 1 P) (component 1 Q))
       (lex (ncmp (component 2 P) (component 2 Q))
          (pre_cmp (pre P) (pre Q)))).

(** The numbers of two parsed versions are pairwise equal ([!==] is
    false for each pair). *)
Definition same_numbers (P Q : parsed) : Prop :=
  Js.strict_neq (component 0 P) (component 0 Q) = false /\
  Js.strict_neq (component 1 P) (component 1 Q) = false /\
  Js.strict_neq (component 2 P) (component 2 Q) = false.

(** The sign of the comparison of two strings, as a number. *)
Definition sign_number (c : comparison) : Js.num :=
  match c with
  | Lt => Js.of_Z (-1)
  | Eq => Js.of_Z 0
  | Gt => Js.of_Z 1
  end.

(** The string has no dash. *)
Definition no_dash (s : string) : Prop :=
  Js.all_chars (fun c => negb (Ascii.eqb c "-")) s = true.

(** What follows the first dash of a string, nothing when it has no
    dash. *)
Fixpoint after_first_dash (s : string) : string :=
  match s with
  | EmptyString => EmptyString
  | String c s' => if Ascii.eqb c "-" then s' else after_first_dash s'
  end.

(** The pre-release tag of a version in the words of the
    specification: the version is split at its first dash, and the tag
    is all the text after it.  This is not what [parse] computes; the
    [pre] of [parse] is the definition taken from the code. *)
Definition prerelease_tag (v : option text_value) : string :=
  after_first_dash (strip_v (text v)).



(** [String(b)] for a build, the empty string when it is absent. *)
Definition build_text (b : option build_value) : string :=
  match b with
  | Some BNull | None => EmptyString
  | Some (BNum z) => Js.string_of_Z z
  | Some (BStr s) => s
  end.

(** The searchable text of a record in the words of the specification:
    version, date, channel, the build as a string, the changes and the
    tags, without what is absent or empty, joined by spaces and in lower
    case. *)
Definition searchable_text (it : release) : string :=
  Js.toLowerCase
    (Js.join
       (filter Js.nonempty
          ([ text (version it); text (date it); text (channel it);
             build_text (build it) ]
           ++ or_empty (changes it) ++ or_empty (tags it)))).

(** A record passes when the query is a substring of that text. *)
Definition passes (q : string) (it : release) : bool :=
  Js.includes (searchable_text it) q.

Section Vocabulary.

Variable Date_parse : string -> option Z.

(** The three orders the sorters combine. *)
Definition by_build (a b : release) : comparison :=
  ncmp (toBuild (build a)) (toBuild (build b)).

Definition by_date (a b : release) : comparison :=
  ncmp (toDate Date_parse (date a)) (toDate Date_parse (date b)).

Definition by_version (a b : release) : comparison :=
  version_cmp (parse (version a)) (parse (version b)).

(** The query string names no key of the registry. *)
Definition unrecognized (fromUrl : option string) : Prop :=
  match fromUrl with
  | Some k => assoc k (sorters Date_parse) = None
  | None => True
  end.


(** The view of the shortest session that changes only the sort key:
    [applyFilter] reads [value] under the key [old], then [setSort]
    goes to [new]. *)
Definition resorted_view (dat flt : list release) (value old new : string)
  : list release :=
  filtered
    (snd (setSort Date_parse new
            (snd (applyFilter Date_parse value
                    {| data := dat; filtered := flt; sort := old |})))).

(** The view the full pipeline computes for [value] under the key
    [new]. *)
Definition pipeline_view (dat flt : list release) (value new : string)
  : list release :=
  filtered
    (snd (applyFilter Date_parse value
            {| data := dat; filtered := flt; sort := new |})).

(** The sessions in which only the sort key changes: the view was
    computed from the dataset [dat] by [applyFilter] reading [value]
    in the filter box, or by [load] while the box is blank, and since
    then only [setSort] ran, any number of times and with any names.
    [keys] are the sort keys in force since the view was computed, the
    latest first. *)
Inductive since_filter (dat : list release) (value : string)
  : list string -> state -> Prop :=
| since_applyFilter st :
    data st = dat ->
    fst (applyFilter Date_parse value st) = Done ->
    since_filter dat value [sort st] (snd (applyFilter Date_parse value st))
| since_load fromUrl st :
    Js.nonempty (Js.trim (Js.toLowerCase value)) = false ->
    fst (load Date_parse dat fromUrl st) = Done ->
    since_filter dat value
      [sort (snd (load Date_parse dat fromUrl st))]
      (snd (load Date_parse dat fromUrl st))
| since_setSort name keys st :
    since_filter dat value keys st ->
    since_filter dat value
      (sort (snd (setSort Date_parse name st)) :: keys)
      (snd (setSort Date_parse name st)).

(** The states the page can be in. *)
Inductive reachable : state -> Prop :=
| reach_initial : reachable initial
| reach_load arr fromUrl st :
    reachable st -> reachable (snd (load Date_parse arr fromUrl st))
| reach_filter value st :
    reachable st -> reachable (snd (applyFilter Date_parse value st))
| reach_sort value st :
    reachable st -> reachable (snd (setSort Date_parse value st)).

(** The view is in the order its key asks for: sorting it once more
    moves nothing. *)
Definition settled (st : state) : Prop :=
  forall l, Array_sort (sorters_get Date_parse (sort st)) (filtered st) = Some l ->
            l = filtered st.

End Vocabulary.

(** ** Sample records *)

(** A record that carries a version and a build and nothing else. *)
Definition bare (v : option text_value) (b : option build_value) : release :=
  {| version := v; build := b; date := None; channel := None;
     changes := None; links := None; tags := None |}.

(** A record that carries a date and nothing else. *)
Definition dated (d : option text_value) : release :=
  {| version := None; build := None; date := d; channel := None;
     changes := None; links := None; tags := None |}.

(** Two releases of a changelog. *)
Definition release_1_4 : release :=
  {| version := Some (TStr "1.4.0"); build := Some (BNum 12);
     date := Some (TStr "2024-03-01"); channel := Some (TStr "stable");
     changes := Some ["Fix crash on load"%string];
     links := None; tags := Some ["hotfix"%string] |}.

Definition release_1_5_beta : release :=
  {| version := Some (TStr "v1.5.0-beta"); build := Some (BStr "13");
     date := Some (TStr "2024-03-10"); channel := Some (TStr "beta");
     changes := Some ["New sorter"; "Beta fix"]%string;
     links := None; tags := None |}.

(** Two releases built from the same sources on the same day. *)
Definition release_2_0 : release :=
  {| version := Some (TStr "2.0.0"); build := Some (BNum 7);
     date := Some (TStr "2024-01-01"); channel := None;
     changes := None; links := None; tags := None |}.

Definition release_1_0 : release :=
  {| version := Some (TStr "1.0.0"); build := Some (BNum 7);
     date := Some (TStr "2024-01-01"); channel := None;
     changes := None; links := None; tags := None |}.

(** A session on four releases: the filter box reads a zero between
    spaces under [date-asc], then the key goes to [build-desc] and to
    the inherited name [toString]. *)
Definition four_releases : list release :=
  [release_1_4; release_2_0; release_1_5_beta; release_1_0].

Definition session_filtered : state :=
  snd (applyFilter Host.Date_parse " 0 "
         {| data := four_releases; filtered := []; sort := "date-asc" |}).

Definition session_sorted : state :=
  snd (setSort Host.Date_parse "toString"
         (snd (setSort Host.Date_parse "build-desc" session_filtered))).

(** A session on two releases of the same day and build: the filter
    runs under [semver-asc], then the key goes to [date-desc]. *)
Definition session_twins : state :=
  snd (setSort Host.Date_parse "date-desc"
         (snd (applyFilter Host.Date_parse ""
                 {| data := [release_2_0; release_1_0]; filtered := [];
                    sort := "semver-asc" |}))).

(** ** Positions, keys and sessions *)


(** One of the characters that open or close markup or an attribute
    value. *)
Definition is_markup (c : ascii) : bool :=
  Ascii.eqb c "<" || Ascii.eqb c ">" || Ascii.eqb c "034" || Ascii.eqb c "'".

(** The texts a record is searched by: version, date, channel, a build
    given as text, the changes and the tags. *)
Definition field_texts (it : release) : list string :=
  [ text (version it); text (date it); text (channel it);
    match build it with Some (BStr s) => s | _ => EmptyString end ]
  ++ or_empty (changes it) ++ or_empty (tags it).

(** One of the characters that delimit tags and attribute values in
    the rows [render] writes: the angle brackets and the double
    quote. *)
Definition is_structural (c : ascii) : bool :=
  Ascii.eqb c "<" || Ascii.eqb c ">" || Ascii.eqb c "034".

(** The structural characters of a text, in order. *)
Fixpoint markup_of (s : string) : string :=
  match s with
  | EmptyString => EmptyString
  | String c s' => if is_structural c then String c (markup_of s') else markup_of s'
  end.

(** What of a record decides which tags its row has: whether it has a
    channel to show, whether it has a build, and how many changes and
    links. *)
Definition shape (it : release) : bool * bool * nat * nat :=
  (Js.nonempty (text (channel it)),
   match shown_build (build it) with Some _ => true | None => false end,
   List.length (or_empty (changes it)),
   List.length (match links it with Some l => l | None => [] end)).

Section Sessions.

Variable Date_parse : string -> option Z.


(** The states before [versions.json] has arrived: the listeners are
    in place, [load] is still waiting. *)
Inductive waiting : state -> Prop :=
| wait_initial : waiting initial
| wait_filter value st :
    waiting st -> waiting (snd (applyFilter Date_parse value st))
| wait_sort value st :
    waiting st -> waiting (snd (setSort Date_parse value st)).

(** The states of a page that has loaded [arr]: [load] runs once, then
    the filter box and the sort menu are used. *)
Inductive loaded (arr : list release) : state -> Prop :=
| loaded_load fromUrl st :
    waiting st -> loaded arr (snd (load Date_parse arr fromUrl st))
| loaded_filter value st :
    loaded arr st -> loaded arr (snd (applyFilter Date_parse value st))
| loaded_sort value st :
    loaded arr st -> loaded arr (snd (setSort Date_parse value st)).

End Sessions.

(* ================================================================== *)
(** * Comparisons *)
(* ================================================================== *)

Lemma CompOpp_lex (c d : comparison) :
  CompOpp (lex c d) = lex (CompOpp c) (CompOpp d).
Proof. destruct c; reflexivity. Qed.

Section OrderCmp.

Context {A : Type} (f : A -> A -> comparison) (Hf : order_cmp f).

Lemma cmp_refl x : f x x = Eq.
Proof.
  pose proof (cmp_anti f Hf x x) as H.
  destruct (f x x); simpl in H; congruence.
Qed.

Lemma cmp_eq_sym x y : f x y = Eq -> f y x = Eq.
Proof. intros H. rewrite (cmp_anti f Hf x y), H. reflexivity. Qed.

Lemma cmp_eq_r x y z : f y z = Eq -> f x y = f x z.
Proof.
  intros H.
  rewrite (cmp_anti f Hf y x), (cmp_anti f Hf z x).
  f_equal. apply (cmp_eq f Hf). exact H.
Qed.

Lemma cmp_gt x y z : f x y = Gt -> f y z = Gt -> f x z = Gt.
Proof.
  intros H1 H2.
  assert (f z y = Lt) as H3 by (rewrite (cmp_anti f Hf y z), H2; reflexivity).
  assert (f y x = Lt) as H4 by (rewrite (cmp_anti f Hf x y), H1; reflexivity).
  rewrite (cmp_anti f Hf z x), (cmp_lt f Hf z y x H3 H4). reflexivity.
Qed.

Lemma cmp_le_trans x y z : f x y <> Gt -> f y z <> Gt -> f x z <> Gt.
Proof.
  intros H1 H2 H3.
  destruct (f x y) eqn:Exy; [ | | congruence ].
  - rewrite (cmp_eq f Hf x y z Exy) in H3. congruence.
  - destruct (f y z) eqn:Eyz; [ | | congruence ].
    + rewrite <- (cmp_eq_r x y z Eyz), Exy in H3. discriminate.
    + rewrite (cmp_lt f Hf x y z Exy Eyz) in H3. discriminate.
Qed.

Lemma order_flip : order_cmp (fun x y => f y x).
Proof.
  split.
  - intros x y. apply (cmp_anti f Hf).
  - intros x y z H. apply cmp_eq_r. apply cmp_eq_sym. exact H.
  - intros x y z H1 H2. apply (cmp_lt f Hf z y x); assumption.
Qed.

Lemma order_on {B : Type} (key : B -> A) :
  order_cmp (fun x y => f (key x) (key y)).
Proof.
  split; intros.
  - apply (cmp_anti f Hf).
  - apply (cmp_eq f Hf). assumption.
  - eapply (cmp_lt f Hf); eassumption.
Qed.

End OrderCmp.

Lemma order_lex {A : Type} (f g : A -> A -> comparison) :
  order_cmp f -> order_cmp g -> order_cmp (fun x y => lex (f x y) (g x y)).
Proof.
  intros Hf Hg. split.
  - intros x y. rewrite (cmp_anti f Hf x y), (cmp_anti g Hg x y).
    symmetry. apply CompOpp_lex.
  - intros x y z H.
    destruct (f x y) eqn:Ef; simpl in H; try discriminate.
    rewrite (cmp_eq f Hf x y z Ef), (cmp_eq g Hg x y z H). reflexivity.
  - intros x y z H1 H2.
    destruct (f x y) eqn:Exy; simpl in H1; try discriminate.
    + rewrite (cmp_eq f Hf x y z Exy).
      destruct (f y z) eqn:Eyz; simpl in H2; try discriminate; simpl.
      * apply (cmp_lt g Hg x y z); assumption.
      * reflexivity.
    + destruct (f y z) eqn:Eyz; simpl in H2; try discriminate.
      * rewrite <- (cmp_eq_r f Hf x y z Eyz), Exy. reflexivity.
      * rewrite (cmp_lt f Hf x y z Exy Eyz). reflexivity.
Qed.

(** ** Numbers as sort keys *)

Lemma Qcompare_sub (x y : Q) : (x - y ?= 0)%Q = (x ?= y)%Q.
Proof.
  unfold Qcompare, Qminus, Qplus, Qopp. simpl.
  rewrite Z.mul_1_r.
  rewrite (Z.compare_sub (Qnum x * Zpos (Qden y)) (Qnum y * Zpos (Qden x))).
  f_equal. ring.
Qed.

Lemma Qcompare_opp0 (x : Q) : (- x ?= 0)%Q = CompOpp (x ?= 0)%Q.
Proof.
  unfold Qcompare, Qopp. simpl. rewrite !Z.mul_1_r.
  destruct (Qnum x); reflexivity.
Qed.

Lemma order_ncmp : order_cmp ncmp.
Proof.
  split.
  - intros [ | | | x] [ | | | y]; simpl; try reflexivity.
    symmetry. apply Qcompare_antisym.
  - intros [ | | | x] [ | | | y] [ | | | z]; simpl; intros H;
      try discriminate; try reflexivity.
    apply Qeq_alt in H. rewrite H. reflexivity.
  - intros [ | | | x] [ | | | y] [ | | | z]; simpl; intros H1 H2;
      try discriminate; try reflexivity.
    apply Qlt_alt in H1, H2. apply Qlt_alt. eapply Qlt_trans; eassumption.
Qed.

Lemma truthy_sign (u : Js.num) : Js.truthy u = false <-> Js.sign u = Eq.
Proof.
  destruct u as [ | | | x]; simpl; try (split; [reflexivity | reflexivity]);
    try (split; discriminate).
  rewrite negb_false_iff, Qeq_bool_iff. apply Qeq_alt.
Qed.

Lemma sign_or (u v : Js.num) :
  Js.sign (Js.or u v) = lex (Js.sign u) (Js.sign v).
Proof.
  unfold Js.or. destruct (Js.truthy u) eqn:E.
  - destruct (Js.sign u) eqn:S; try reflexivity.
    apply truthy_sign in S. congruence.
  - apply truthy_sign in E. rewrite E. reflexivity.
Qed.

Lemma sign_negate (u : Js.num) : Js.sign (Js.negate u) = CompOpp (Js.sign u).
Proof. destruct u; simpl; try reflexivity. apply Qcompare_opp0. Qed.

Lemma sign_sub (a b : Js.num) :
  a <> Js.NaN -> b <> Js.NaN -> Js.sign (Js.sub a b) = ncmp a b.
Proof.
  destruct a as [ | | | x], b as [ | | | y]; simpl; intros Ha Hb;
    try congruence.
  apply Qcompare_sub.
Qed.

Lemma strict_neq_ncmp (a b : Js.num) :
  a <> Js.NaN -> b <> Js.NaN -> Js.strict_neq a b = false <-> ncmp a b = Eq.
Proof.
  destruct a as [ | | | x], b as [ | | | y]; simpl; intros Ha Hb;
    try congruence; try (split; [reflexivity | reflexivity]);
    try (split; discriminate).
  rewrite negb_false_iff, Qeq_bool_iff. apply Qeq_alt.
Qed.

(* ================================================================== *)
(** * Stable sorting under a consistent comparator *)
(* ================================================================== *)

Section SortPermutation.

Context {A : Type} (cmp : A -> A -> Js.num).

Lemma insert_perm (x : A) (l : list A) : Permutation (insert cmp x l) (x :: l).
Proof.
  induction l as [ | y l IH]; simpl.
  - apply Permutation_refl.
  - destruct (Js.sign (cmp x y)); try apply Permutation_refl.
    eapply perm_trans; [ apply perm_skip, IH | apply perm_swap ].
Qed.

Lemma sort_by_perm (l : list A) : Permutation (sort_by cmp l) l.
Proof.
  induction l as [ | x l IH]; simpl.
  - apply perm_nil.
  - eapply perm_trans; [ apply insert_perm | apply perm_skip, IH ].
Qed.

Lemma sort_by_In (l : list A) (x : A) : In x (sort_by cmp l) <-> In x l.
Proof.
  split; apply Permutation_in;
    [ apply sort_by_perm | apply Permutation_sym, sort_by_perm ].
Qed.

Lemma sort_by_length (l : list A) : List.length (sort_by cmp l) = List.length l.
Proof. apply Permutation_length, sort_by_perm. Qed.

End SortPermutation.

Section SortOrder.

Context {A : Type} (cmp : A -> A -> Js.num) (Hc : consistent cmp).

Lemma ties_refl (x : A) : ties cmp x x = true.
Proof. unfold ties. rewrite (cmp_refl _ Hc x). reflexivity. Qed.

Lemma ties_true (x y : A) : ties cmp x y = true <-> Js.sign (cmp x y) = Eq.
Proof. unfold ties. destruct (Js.sign (cmp x y)); split; congruence. Qed.

Lemma in_order_both (x y : A) :
  in_order cmp x y -> in_order cmp y x -> ties cmp x y = true.
Proof.
  unfold in_order. intros H1 H2. apply ties_true.
  rewrite (cmp_anti _ Hc x y) in H2.
  destruct (Js.sign (cmp x y)); simpl in *; congruence.
Qed.

Lemma insert_sorted (x : A) (l : list A) :
  sorted cmp l -> sorted cmp (insert cmp x l).
Proof.
  unfold sorted. induction 1 as [ | y l Hl IH Hy]; simpl.
  - constructor; constructor.
  - destruct (Js.sign (cmp x y)) eqn:E.
    + constructor; [ constructor; assumption | ].
      constructor; [ unfold in_order; congruence | ].
      eapply Forall_impl; [ | exact Hy ].
      intros z Hz. apply (cmp_le_trans _ Hc x y z); [ congruence | exact Hz ].
    + constructor; [ constructor; assumption | ].
      constructor; [ unfold in_order; congruence | ].
      eapply Forall_impl; [ | exact Hy ].
      intros z Hz. apply (cmp_le_trans _ Hc x y z); [ congruence | exact Hz ].
    + constructor; [ exact IH | ].
      eapply Permutation_Forall; [ apply Permutation_sym, insert_perm | ].
      constructor; [ | exact Hy ].
      unfold in_order. rewrite (cmp_anti _ Hc x y), E. discriminate.
Qed.

Lemma sort_by_sorted (l : list A) : sorted cmp (sort_by cmp l).
Proof.
  induction l as [ | x l IH]; simpl.
  - constructor.
  - apply insert_sorted, IH.
Qed.

(** Stability: records the comparator ties keep their order. *)
Lemma filter_insert (x a : A) (l : list A) :
  filter (ties cmp x) (insert cmp a l) = filter (ties cmp x) (a :: l).
Proof.
  induction l as [ | y l IH]; [ reflexivity | ].
  cbn [insert]. destruct (Js.sign (cmp a y)) eqn:E; try reflexivity.
  cbn [filter] in *. rewrite IH.
  destruct (ties cmp x a) eqn:Ta; [ | reflexivity ].
  destruct (ties cmp x y) eqn:Ty; [ | reflexivity ].
  apply ties_true in Ta, Ty.
  rewrite <- (cmp_eq _ Hc x a y Ta), Ty in E. discriminate.
Qed.

Lemma sort_by_stable (x : A) (l : list A) :
  filter (ties cmp x) (sort_by cmp l) = filter (ties cmp x) l.
Proof.
  induction l as [ | a l IH]; [ reflexivity | ].
  cbn [sort_by fold_right]. fold (sort_by cmp l).
  rewrite filter_insert. cbn [filter]. rewrite IH. reflexivity.
Qed.

(** A sorted list stays as it is. *)
Lemma sort_by_fixed (l : list A) : sorted cmp l -> sort_by cmp l = l.
Proof.
  unfold sorted. induction 1 as [ | x l Hl IH Hx]; [ reflexivity | ].
  cbn [sort_by fold_right]. fold (sort_by cmp l). rewrite IH.
  destruct l as [ | y l]; [ reflexivity | ].
  cbn [insert]. inversion Hx as [ | ? ? Hxy _]; subst.
  unfold in_order in Hxy.
  destruct (Js.sign (cmp x y)); congruence.
Qed.

Lemma sort_by_idem (l : list A) : sort_by cmp (sort_by cmp l) = sort_by cmp l.
Proof. apply sort_by_fixed, sort_by_sorted. Qed.

Lemma sorted_head_least (a : A) (l : list A) (x : A) :
  sorted cmp (a :: l) -> In x (a :: l) -> in_order cmp a x.
Proof.
  intros Hs [-> | Hin].
  - unfold in_order. rewrite (cmp_refl _ Hc x). discriminate.
  - inversion Hs as [ | ? ? _ Hall]; subst.
    rewrite Forall_forall in Hall. apply Hall, Hin.
Qed.

Lemma filter_head_In (x : A) (l m : list A) (p : A -> bool) :
  p x = true -> filter p (x :: l) = filter p m -> In x m.
Proof.
  intros Hp H. cbn [filter] in H. rewrite Hp in H.
  assert (In x (filter p m)) as Hin by (rewrite <- H; left; reflexivity).
  apply filter_In in Hin. tauto.
Qed.

(** The stable sorted arrangement is unique: two sorted lists that
    keep every class of tied elements in the same order are equal. *)
Lemma sorted_unique (l1 : list A) : forall l2 : list A,
  sorted cmp l1 -> sorted cmp l2 ->
  (forall x, In x l1 \/ In x l2 ->
             filter (ties cmp x) l1 = filter (ties cmp x) l2) ->
  l1 = l2.
Proof.
  induction l1 as [ | a l1 IH]; intros [ | b l2] H1 H2 H; try reflexivity.
  - specialize (H b (or_intror (or_introl eq_refl))).
    cbn [filter] in H. rewrite ties_refl in H. discriminate.
  - specialize (H a (or_introl (or_introl eq_refl))).
    cbn [filter] in H. rewrite ties_refl in H. discriminate.
  - assert (ties cmp a b = true) as Tab.
    { apply in_order_both.
      - apply (sorted_head_least a l1 b H1).
        apply (filter_head_In b l2 (a :: l1) (ties cmp b) (ties_refl b)).
        symmetry. apply H. right. left. reflexivity.
      - apply (sorted_head_least b l2 a H2).
        apply (filter_head_In a l1 (b :: l2) (ties cmp a) (ties_refl a)).
        apply H. left. left. reflexivity. }
    assert (a = b) as ->.
    { pose proof (H a (or_introl (or_introl eq_refl))) as Ha.
      cbn [filter] in Ha. rewrite ties_refl, Tab in Ha. congruence. }
    f_equal. apply IH.
    + inversion H1; assumption.
    + inversion H2; assumption.
    + intros x Hx.
      assert (In x (b :: l1) \/ In x (b :: l2)) as Hx'
          by (destruct Hx; [ left | right ]; right; assumption).
      specialize (H x Hx'). cbn [filter] in H.
      destruct (ties cmp x b); congruence.
Qed.

(** What a stable sort may return is what [sort_by] returns. *)
Lemma sort_by_unique (l l' : list A) :
  sorted cmp l' ->
  (forall x, filter (ties cmp x) l' = filter (ties cmp x) l) ->
  l' = sort_by cmp l.
Proof.
  intros Hs H. apply sorted_unique; [ exact Hs | apply sort_by_sorted | ].
  intros x _. rewrite sort_by_stable. apply H.
Qed.

End SortOrder.

Lemma filter_refine {A : Type} (p q : A -> bool) (l : list A) :
  (forall y, In y l -> p y = true -> q y = true) ->
  filter p l = filter p (filter q l).
Proof.
  induction l as [ | a l IH]; intros H; [ reflexivity | ].
  cbn [filter].
  assert (filter p l = filter p (filter q l)) as E
      by (apply IH; intros y Hy; apply H; right; exact Hy).
  destruct (p a) eqn:Pa.
  - rewrite (H a (or_introl eq_refl) Pa). cbn [filter]. rewrite Pa, E. reflexivity.
  - destruct (q a); cbn [filter]; rewrite ?Pa; exact E.
Qed.

(** Sorting a list that was sorted before by another comparator: the
    earlier sort does not show when it kept together whatever the later
    one ties. *)
Lemma sort_by_resort {A : Type} (cold cnew : A -> A -> Js.num) (l : list A) :
  consistent cold -> consistent cnew ->
  (forall x y, In x l -> In y l -> ties cnew x y = true -> ties cold x y = true) ->
  sort_by cnew (sort_by cold l) = sort_by cnew l.
Proof.
  intros Hold Hnew H.
  apply (sorted_unique cnew Hnew); try apply sort_by_sorted; try assumption.
  intros x Hx.
  assert (In x l) as Hxl.
  { destruct Hx as [Hx | Hx]; apply sort_by_In in Hx; try exact Hx.
    apply sort_by_In in Hx. exact Hx. }
  rewrite !(sort_by_stable cnew Hnew).
  rewrite (filter_refine (ties cnew x) (ties cold x) (sort_by cold l)).
  - rewrite (sort_by_stable cold Hold).
    symmetry. apply filter_refine. intros y Hy. apply H; assumption.
  - intros y Hy. apply H; [ exact Hxl | ]. apply sort_by_In in Hy. exact Hy.
Qed.

(** ** Sorting again and again *)

Lemma same_classes_refl {A : Type} (cnew : A -> A -> Js.num) (l : list A) :
  same_classes cnew l l.
Proof. split; [ apply Permutation_refl | reflexivity ]. Qed.

(** A sort by [c] keeps the classes of [cnew] in their order when [c]
    ties what [cnew] ties. *)
Lemma same_classes_sort {A : Type} (c cnew : A -> A -> Js.num) (l v : list A) :
  consistent c ->
  (forall x y, In x l -> In y l -> ties cnew x y = true -> ties c x y = true) ->
  same_classes cnew l v -> same_classes cnew l (sort_by c v).
Proof.
  intros Hc H [Hp Hv]. split.
  - eapply perm_trans; [ apply sort_by_perm | exact Hp ].
  - intros x Hx. rewrite <- (Hv x Hx).
    assert (forall m, Permutation m l ->
              filter (ties cnew x) m
              = filter (ties cnew x) (filter (ties c x) m)) as E.
    { intros m Hm. apply filter_refine. intros y Hy. apply H; [ exact Hx | ].
      apply (Permutation_in y Hm Hy). }
    rewrite (E (sort_by c v)), (E v Hp), (sort_by_stable c Hc);
      [ reflexivity | ].
    eapply perm_trans; [ apply sort_by_perm | exact Hp ].
Qed.

(** Sorting by [cnew] a list that kept the classes of [cnew] in order
    gives the sort of the original list. *)
Lemma same_classes_resort {A : Type} (cnew : A -> A -> Js.num) (l v : list A) :
  consistent cnew -> same_classes cnew l v -> sort_by cnew v = sort_by cnew l.
Proof.
  intros Hc [Hp Hv].
  apply (sorted_unique cnew Hc); try apply sort_by_sorted; try exact Hc.
  intros x Hx.
  assert (In x l) as Hxl.
  { destruct Hx as [Hx | Hx]; apply sort_by_In in Hx; [ | exact Hx ].
    apply (Permutation_in x Hp Hx). }
  rewrite !(sort_by_stable cnew Hc). apply Hv, Hxl.
Qed.

(* ================================================================== *)
(** * The comparators of app.js are consistent *)
(* ================================================================== *)

Lemma order_ext {A : Type} (f g : A -> A -> comparison) :
  (forall x y, f x y = g x y) -> order_cmp g -> order_cmp f.
Proof.
  intros E Hg. split; intros *; rewrite !E.
  - apply (cmp_anti g Hg).
  - apply (cmp_eq g Hg).
  - apply (cmp_lt g Hg).
Qed.

(** ** Strings *)

Lemma ascii_compare_lt_trans (a b c : ascii) :
  Ascii.compare a b = Lt -> Ascii.compare b c = Lt -> Ascii.compare a c = Lt.
Proof.
  unfold Ascii.compare. rewrite !N.compare_lt_iff. apply N.lt_trans.
Qed.

Lemma string_compare_lt_trans (x : string) : forall y z,
  String.compare x y = Lt -> String.compare y z = Lt -> String.compare x z = Lt.
Proof.
  induction x as [ | a x IH]; intros [ | b y] [ | c z]; simpl;
    try discriminate; try reflexivity.
  destruct (Ascii.compare a b) eqn:Eab; try discriminate;
    destruct (Ascii.compare b c) eqn:Ebc; try discriminate; intros H1 H2.
  - apply Ascii.compare_eq_iff in Eab, Ebc. subst.
    unfold Ascii.compare at 1. rewrite N.compare_refl.
    eapply IH; eassumption.
  - apply Ascii.compare_eq_iff in Eab. subst. rewrite Ebc. reflexivity.
  - apply Ascii.compare_eq_iff in Ebc. subst. rewrite Eab. reflexivity.
  - rewrite (ascii_compare_lt_trans a b c Eab Ebc). reflexivity.
Qed.

Lemma order_string : order_cmp String.compare.
Proof.
  split.
  - intros x y. apply String.compare_antisym.
  - intros x y z H. apply String.compare_eq_iff in H. subst. reflexivity.
  - intros x y z. apply string_compare_lt_trans.
Qed.

Lemma order_bool : order_cmp bool_cmp.
Proof.
  split.
  - intros [ | ] [ | ]; reflexivity.
  - intros [ | ] [ | ] [ | ]; simpl; congruence.
  - intros [ | ] [ | ] [ | ]; simpl; congruence.
Qed.

(** ** Versions *)

Lemma order_pre : order_cmp pre_cmp.
Proof.
  unfold pre_cmp.
  apply (order_lex (fun p q => bool_cmp (negb (Js.nonempty p)) (negb (Js.nonempty q)))).
  - apply (order_on bool_cmp order_bool (fun p => negb (Js.nonempty p))).
  - apply order_string.
Qed.

Lemma order_version : order_cmp version_cmp.
Proof.
  unfold version_cmp.
  repeat (apply (order_lex (fun P Q => ncmp (component _ P) (component _ Q)));
          [ apply (order_on ncmp order_ncmp) | ]).
  apply (order_on pre_cmp order_pre).
Qed.

Lemma or0_not_NaN (x : Js.num) : Js.or x (Js.Fin 0) <> Js.NaN.
Proof.
  unfold Js.or. destruct (Js.truthy x) eqn:E; [ | discriminate ].
  intros ->. discriminate.
Qed.

Lemma at_or0_not_NaN (nums : list Js.num) (i : nat) : at_or0 nums i <> Js.NaN.
Proof.
  unfold at_or0. destruct (nth_error nums i); [ apply or0_not_NaN | discriminate ].
Qed.

Lemma parse_shape (v : option text_value) :
  exists x y z, n (parse v) = [x; y; z] /\
                x <> Js.NaN /\ y <> Js.NaN /\ z <> Js.NaN.
Proof.
  unfold parse. cbn [n]. do 3 eexists. split; [ reflexivity | ].
  repeat split; apply at_or0_not_NaN.
Qed.

Lemma sign_pre (p q : string) :
  Js.sign
    (if Js.nonempty p && negb (Js.nonempty q) then Js.of_Z (-1)
     else if negb (Js.nonempty p) && Js.nonempty q then Js.of_Z 1
     else if Js.str_lt p q then Js.of_Z (-1)
     else if Js.str_lt q p then Js.of_Z 1
     else Js.of_Z 0) = pre_cmp p q.
Proof.
  unfold pre_cmp, Js.str_lt, String.ltb.
  rewrite (String.compare_antisym q p).
  destruct p, q; cbn [Js.nonempty negb andb bool_cmp lex]; try reflexivity.
  destruct (String.compare (String a p) (String a0 q)); reflexivity.
Qed.

Lemma sign_step (x y : Js.num) (k : Js.num) :
  x <> Js.NaN -> y <> Js.NaN ->
  Js.sign (if Js.strict_neq x y then Js.sub x y else k) = lex (ncmp x y) (Js.sign k).
Proof.
  intros Hx Hy. destruct (Js.strict_neq x y) eqn:E.
  - rewrite (sign_sub x y Hx Hy).
    destruct (ncmp x y) eqn:C; try reflexivity.
    apply (strict_neq_ncmp x y Hx Hy) in C. congruence.
  - apply (strict_neq_ncmp x y Hx Hy) in E. rewrite E. reflexivity.
Qed.

(** The sign of [cmpSemver] is the order of the parsed versions. *)
Lemma sign_cmpSemver (a b : option text_value) :
  Js.sign (cmpSemver a b) = version_cmp (parse a) (parse b).
Proof.
  unfold cmpSemver, version_cmp, component.
  destruct (parse_shape a) as (a0 & a1 & a2 & Ea & Ha0 & Ha1 & Ha2).
  destruct (parse_shape b) as (b0 & b1 & b2 & Eb & Hb0 & Hb1 & Hb2).
  rewrite Ea, Eb. cbn [first_diff nth].
  rewrite <- sign_pre.
  rewrite <- (sign_step a2 b2 _ Ha2 Hb2).
  rewrite <- (sign_step a1 b1 _ Ha1 Hb1).
  rewrite <- (sign_step a0 b0 _ Ha0 Hb0).
  destruct (Js.strict_neq a0 b0); [ reflexivity | ].
  destruct (Js.strict_neq a1 b1); [ reflexivity | ].
  destruct (Js.strict_neq a2 b2); reflexivity.
Qed.

Lemma cmpSemver_not_NaN (a b : option text_value) : cmpSemver a b <> Js.NaN.
Proof.
  unfold cmpSemver.
  destruct (parse_shape a) as (a0 & a1 & a2 & Ea & Ha0 & Ha1 & Ha2).
  destruct (parse_shape b) as (b0 & b1 & b2 & Eb & Hb0 & Hb1 & Hb2).
  rewrite Ea, Eb. cbn [first_diff].
  assert (forall x y, x <> Js.NaN -> y <> Js.NaN ->
                      Js.strict_neq x y = true -> Js.sub x y <> Js.NaN) as Hsub.
  { intros [ | | | x] [ | | | y] Hx Hy; simpl; congruence. }
  destruct (Js.strict_neq a0 b0) eqn:E0; [ apply Hsub; assumption | ].
  destruct (Js.strict_neq a1 b1) eqn:E1; [ apply Hsub; assumption | ].
  destruct (Js.strict_neq a2 b2) eqn:E2; [ apply Hsub; assumption | ].
  repeat match goal with |- context [if ?c then _ else _] => destruct c end;
    discriminate.
Qed.

Section Registry.

Variable Date_parse : string -> option Z.

Lemma toBuild_cases (b : option build_value) :
  toBuild b = Js.NegInf \/ exists q, toBuild b = Js.Fin q.
Proof.
  unfold toBuild. destruct (Number b); simpl; eauto.
Qed.

Lemma toDate_cases (d : option text_value) :
  toDate Date_parse d = Js.NegInf \/ exists q, toDate Date_parse d = Js.Fin q.
Proof.
  unfold toDate. destruct (Date_getTime Date_parse d); simpl; eauto.
Qed.

Lemma toBuild_not_NaN (b : option build_value) : toBuild b <> Js.NaN.
Proof. destruct (toBuild_cases b) as [-> | [q ->]]; discriminate. Qed.

Lemma toDate_not_NaN (d : option text_value) : toDate Date_parse d <> Js.NaN.
Proof. destruct (toDate_cases d) as [-> | [q ->]]; discriminate. Qed.

Lemma order_by_build : order_cmp by_build.
Proof. apply (order_on ncmp order_ncmp). Qed.

Lemma order_by_date : order_cmp (by_date Date_parse).
Proof. apply (order_on ncmp order_ncmp). Qed.

Lemma order_by_version : order_cmp by_version.
Proof. apply (order_on version_cmp order_version). Qed.

Lemma sign_build_diff (a b : release) :
  Js.sign (Js.sub (toBuild (build a)) (toBuild (build b))) = by_build a b.
Proof. apply sign_sub; apply toBuild_not_NaN. Qed.

Lemma sign_date_diff (a b : release) :
  Js.sign (Js.sub (toDate Date_parse (date a)) (toDate Date_parse (date b))) = by_date Date_parse a b.
Proof. apply sign_sub; apply toDate_not_NaN. Qed.

Lemma sign_version (a b : release) :
  Js.sign (cmpSemver (version a) (version b)) = by_version a b.
Proof. apply sign_cmpSemver. Qed.

Lemma sign_build_desc (a b : release) :
  Js.sign (build_desc Date_parse a b)
  = lex (by_build b a) (lex (by_date Date_parse b a) (by_version b a)).
Proof.
  unfold build_desc.
  rewrite !sign_or, sign_build_diff, sign_date_diff, sign_version. reflexivity.
Qed.

Lemma sign_build_asc (a b : release) :
  Js.sign (build_asc Date_parse a b)
  = lex (by_build a b) (lex (by_date Date_parse a b) (by_version a b)).
Proof.
  unfold build_asc.
  rewrite !sign_or, sign_build_diff, sign_date_diff, sign_version. reflexivity.
Qed.

Lemma sign_semver_desc (a b : release) :
  Js.sign (semver_desc Date_parse a b) = lex (by_version b a) (by_date Date_parse b a).
Proof.
  unfold semver_desc.
  rewrite sign_or, sign_negate, sign_date_diff, sign_version.
  rewrite <- (cmp_anti by_version order_by_version a b). reflexivity.
Qed.

Lemma sign_semver_asc (a b : release) :
  Js.sign (semver_asc Date_parse a b) = lex (by_version a b) (by_date Date_parse a b).
Proof.
  unfold semver_asc. rewrite sign_or, sign_date_diff, sign_version. reflexivity.
Qed.

Lemma sign_date_desc (a b : release) :
  Js.sign (date_desc Date_parse a b) = lex (by_date Date_parse b a) (by_build b a).
Proof.
  unfold date_desc. rewrite sign_or, sign_date_diff, sign_build_diff. reflexivity.
Qed.

Lemma sign_date_asc (a b : release) :
  Js.sign (date_asc Date_parse a b) = lex (by_date Date_parse a b) (by_build a b).
Proof.
  unfold date_asc. rewrite sign_or, sign_date_diff, sign_build_diff. reflexivity.
Qed.

Lemma registry_cases (k : string) (c : comparator) :
  In (k, c) (sorters Date_parse) ->
  c = build_desc Date_parse \/ c = build_asc Date_parse \/
  c = semver_desc Date_parse \/ c = semver_asc Date_parse \/
  c = date_desc Date_parse \/ c = date_asc Date_parse.
Proof.
  unfold sorters. simpl.
  intros [H | [H | [H | [H | [H | [H | []]]]]]]; inversion H; tauto.
Qed.

Lemma assoc_In {V : Type} (k : string) (t : list (string * V)) (v : V) :
  assoc k t = Some v -> In (k, v) t.
Proof.
  induction t as [ | [k' v'] t IH]; simpl; [ discriminate | ].
  destruct (String.eqb_spec k k') as [-> | _].
  - intros [= ->]. left. reflexivity.
  - intros H. right. apply IH, H.
Qed.

(** Every comparator of the registry is consistent. *)
Lemma registry_consistent (k : string) (c : comparator) :
  In (k, c) (sorters Date_parse) -> consistent c.
Proof.
  intros H. unfold consistent.
  destruct (registry_cases k c H) as [-> | [-> | [-> | [-> | [-> | ->]]]]].
  - apply (order_ext _ _ sign_build_desc).
    apply (order_lex (fun a b => by_build b a)
             (fun a b => lex (by_date Date_parse b a) (by_version b a))).
    + apply order_flip, order_by_build.
    + apply (order_lex (fun a b => by_date Date_parse b a) (fun a b => by_version b a));
        apply order_flip; [ apply order_by_date | apply order_by_version ].
  - apply (order_ext _ _ sign_build_asc).
    apply (order_lex by_build (fun a b => lex (by_date Date_parse a b) (by_version a b)));
      [ apply order_by_build | ].
    apply (order_lex (by_date Date_parse) by_version);
      [ apply order_by_date | apply order_by_version ].
  - apply (order_ext _ _ sign_semver_desc).
    apply (order_lex (fun a b => by_version b a) (fun a b => by_date Date_parse b a));
      apply order_flip; [ apply order_by_version | apply order_by_date ].
  - apply (order_ext _ _ sign_semver_asc).
    apply (order_lex by_version (by_date Date_parse));
      [ apply order_by_version | apply order_by_date ].
  - apply (order_ext _ _ sign_date_desc).
    apply (order_lex (fun a b => by_date Date_parse b a) (fun a b => by_build b a));
      apply order_flip; [ apply order_by_date | apply order_by_build ].
  - apply (order_ext _ _ sign_date_asc).
    apply (order_lex (by_date Date_parse) by_build);
      [ apply order_by_date | apply order_by_build ].
Qed.

End Registry.

(* ================================================================== *)
(** * The default sort *)
(* ================================================================== *)

Lemma existsb_false_iff {A : Type} (p : A -> bool) (l : list A) :
  existsb p l = false <-> forall x, In x l -> p x = false.
Proof.
  induction l as [ | a l IH]; simpl.
  - split; [ intros _ x [] | reflexivity ].
  - rewrite orb_false_iff, IH. split.
    + intros [Ha H] x [<- | Hx]; auto.
    + intros H. split; [ apply H; left; reflexivity | ].
      intros x Hx. apply H. right. exact Hx.
Qed.



(** C10: on an empty dataset [pickDefaultSort] answers [semver-desc]:
    no record has a numeric build, and all of the none have a semver
    shaped version. *)
Theorem pickDefaultSort_empty :
  pickDefaultSort [] = "semver-desc"%string /\
  existsb (fun r => Js.isFinite (Number (build r))) [] = false /\
  forallb (fun r => looksLikeSemver (version r)) [] = true /\
  pickDefaultSort [] <> "build-desc"%string /\
  pickDefaultSort [] <> "date-desc"%string.
Proof. repeat split; discriminate. Qed.

Lemma pickDefaultSort_range (arr : list release) :
  pickDefaultSort arr = "build-desc"%string \/
  pickDefaultSort arr = "semver-desc"%string \/
  pickDefaultSort arr = "date-desc"%string.
Proof.
  unfold pickDefaultSort.
  destruct (existsb _ arr); [ tauto | ].
  destruct (forallb _ arr); tauto.
Qed.

(** C1: [load] does not consult [pickDefaultSort].  When the query
    string names no key of the registry the key it stores is never the
    one [pickDefaultSort] answers; without a [sort] parameter it is
    always [build-asc]. *)
Theorem load_default_is_build_asc
  (Date_parse : string -> option Z) (arr : list release)
  (fromUrl : option string) (st : state) :
  unrecognized Date_parse fromUrl ->
  sort (snd (load Date_parse arr fromUrl st)) <> pickDefaultSort arr /\
  (truthy_key Date_parse fromUrl = false ->
   sort (snd (load Date_parse arr fromUrl st)) = "build-asc"%string).
Proof.
  intros Hu.
  assert (sort (snd (load Date_parse arr fromUrl st))
          = if truthy_key Date_parse fromUrl then url_key fromUrl else "build-asc"%string)
    as E.
  { unfold load. destruct (Array_sort _ arr); reflexivity. }
  rewrite E. split.
  - destruct (truthy_key Date_parse fromUrl) eqn:T.
    + destruct fromUrl as [k | ]; [ | discriminate ].
      cbn [url_key unrecognized] in *.
      destruct (pickDefaultSort_range arr) as [-> | [-> | ->]];
        intros ->; discriminate.
    + destruct (pickDefaultSort_range arr) as [-> | [-> | ->]]; discriminate.
  - intros ->. reflexivity.
Qed.

Lemma load_default_is_build_asc_witness :
  sort (snd (load Host.Date_parse [release_1_4; release_1_5_beta]
               (Some "newest"%string) initial))
  <> pickDefaultSort [release_1_4; release_1_5_beta] /\
  (truthy_key Host.Date_parse (Some "newest"%string) = false ->
   sort (snd (load Host.Date_parse [release_1_4; release_1_5_beta]
                (Some "newest"%string) initial)) = "build-asc"%string).
Proof.
  apply (load_default_is_build_asc Host.Date_parse). reflexivity.
Defined.

(* ================================================================== *)
(** * Versions *)
(* ================================================================== *)

Lemma split_no_sep (sep : ascii) (s : string) :
  Js.all_chars (fun c => negb (Ascii.eqb c sep)) s = true ->
  Js.split sep s = [s].
Proof.
  induction s as [ | c s IH]; simpl; [ reflexivity | ].
  rewrite andb_true_iff, negb_true_iff. intros [-> H].
  rewrite (IH H). reflexivity.
Qed.

Lemma split_at_sep (sep : ascii) (a b : string) :
  Js.all_chars (fun c => negb (Ascii.eqb c sep)) a = true ->
  Js.split sep (a ++ String sep b) = a :: Js.split sep b.
Proof.
  induction a as [ | c a IH]; simpl.
  - intros _. rewrite Ascii.eqb_refl. reflexivity.
  - rewrite andb_true_iff, negb_true_iff. intros [-> H].
    rewrite (IH H). reflexivity.
Qed.

(** With a single dash the pre-release is all that follows it. *)
Lemma pre_single_dash (v : option text_value) (core mid : string) :
  no_dash core -> no_dash mid ->
  strip_v (text v) = (core ++ String "-" mid)%string ->
  pre (parse v) = mid.
Proof.
  unfold no_dash, parse. intros Hc Hm ->. cbn [pre].
  rewrite (split_at_sep "-" core mid Hc), (split_no_sep "-" mid Hm).
  reflexivity.
Qed.

(** With more dashes the pre-release stops at the second. *)
Lemma pre_between_dashes (v : option text_value) (core mid rest : string) :
  no_dash core -> no_dash mid ->
  strip_v (text v) = (core ++ String "-" (mid ++ String "-" rest))%string ->
  pre (parse v) = mid.
Proof.
  unfold no_dash, parse. intros Hc Hm ->. cbn [pre].
  rewrite (split_at_sep "-" core _ Hc), (split_at_sep "-" mid rest Hm).
  reflexivity.
Qed.

(** C4: the version is split at every dash and only the first two
    pieces are kept: of [1.2.3-beta-1] the pre-release is [beta], not
    [beta-1], and two versions that differ after a second dash compare
    equal. *)
Theorem parse_keeps_second_piece_only :
  Js.split "-" "1.2.3-beta-1" = ["1.2.3"; "beta"; "1"]%string /\
  pre (parse (Some (TStr "1.2.3-beta-1"))) = "beta"%string /\
  pre (parse (Some (TStr "1.2.3-beta-1"))) <> "beta-1"%string /\
  looksLikeSemver (Some (TStr "1.2.3-beta-1")) = true /\
  cmpSemver (Some (TStr "1.0.0-rc-1")) (Some (TStr "1.0.0-rc-2")) = Js.of_Z 0.
Proof. repeat split; discriminate. Qed.

(** Over the fields [parse] produces: when the three numbers are
    equal, a version with a [pre] compares below one without, and two
    [pre] fields compare as plain strings. *)
Lemma cmpSemver_on_pre (a b : option text_value) :
  same_numbers (parse a) (parse b) ->
  (Js.nonempty (pre (parse a)) = true -> Js.nonempty (pre (parse b)) = false ->
   cmpSemver a b = Js.of_Z (-1)) /\
  (Js.nonempty (pre (parse a)) = false -> Js.nonempty (pre (parse b)) = true ->
   cmpSemver a b = Js.of_Z 1) /\
  (Js.nonempty (pre (parse a)) = true -> Js.nonempty (pre (parse b)) = true ->
   cmpSemver a b = sign_number (String.compare (pre (parse a)) (pre (parse b)))).
Proof.
  intros (H0 & H1 & H2).
  unfold cmpSemver, component in *.
  destruct (parse_shape a) as (a0 & a1 & a2 & Ea & _).
  destruct (parse_shape b) as (b0 & b1 & b2 & Eb & _).
  rewrite Ea, Eb in *. cbn [nth first_diff] in *.
  rewrite H0, H1, H2.
  repeat split; intros Ha Hb; rewrite Ha, Hb; cbn [andb negb]; try reflexivity.
  unfold Js.str_lt, String.ltb.
  rewrite (String.compare_antisym (pre (parse b)) (pre (parse a))).
  destruct (String.compare (pre (parse a)) (pre (parse b))); reflexivity.
Qed.

Lemma split_cons (sep : ascii) (s : string) :
  exists p ps, Js.split sep s = p :: ps.
Proof.
  destruct s as [ | c s]; cbn [Js.split]; [ eauto | ].
  destruct (Ascii.eqb c sep); [ eauto | ].
  destruct (Js.split sep s); eauto.
Qed.

(** The second piece of the split is the text after the first dash
    when that text has no further dash. *)
Lemma second_piece_after_first_dash (t : string) :
  no_dash (after_first_dash t) ->
  nth 1 (Js.split "-" t) EmptyString = after_first_dash t.
Proof.
  unfold no_dash. induction t as [ | c t IH]; [ reflexivity | ].
  cbn [Js.split after_first_dash].
  destruct (Ascii.eqb c "-").
  - intros H. rewrite (split_no_sep "-" t H). reflexivity.
  - intros H. specialize (IH H).
    destruct (split_cons "-" t) as (q & qs & E). rewrite E in *. exact IH.
Qed.

(** A tag without a dash is the [pre] of [parse]. *)
Lemma pre_is_tag (v : option text_value) :
  no_dash (prerelease_tag v) -> pre (parse v) = prerelease_tag v.
Proof. apply second_piece_after_first_dash. Qed.

(** For tags without a dash [cmpSemver] compares as the specification
    says: with equal numbers the version with a tag is below the one
    without, and two tags compare as plain strings. *)
Lemma cmpSemver_on_tags_without_dash (a b : option text_value) :
  no_dash (prerelease_tag a) -> no_dash (prerelease_tag b) ->
  same_numbers (parse a) (parse b) ->
  (Js.nonempty (prerelease_tag a) = true ->
   Js.nonempty (prerelease_tag b) = false -> cmpSemver a b = Js.of_Z (-1)) /\
  (Js.nonempty (prerelease_tag a) = false ->
   Js.nonempty (prerelease_tag b) = true -> cmpSemver a b = Js.of_Z 1) /\
  (Js.nonempty (prerelease_tag a) = true ->
   Js.nonempty (prerelease_tag b) = true ->
   cmpSemver a b
   = sign_number (String.compare (prerelease_tag a) (prerelease_tag b))).
Proof.
  intros Ha Hb Hn.
  rewrite <- (pre_is_tag a Ha), <- (pre_is_tag b Hb).
  apply cmpSemver_on_pre, Hn.
Qed.

(** C5: [cmpSemver] compares the text between the first and the second
    dash, not the pre-release tag.  The specification's example holds:
    [cmpSemver "1.2.3" "1.2.3-beta"] is positive.  But [1.0.0-rc-1] and
    [1.0.0-rc-2] have equal numbers and the tags [rc-1] and [rc-2],
    which compare as smaller, and [cmpSemver] answers 0; [1.2.3--x] has
    the tag [-x], [1.2.3] has none, and [cmpSemver] answers 0 where
    the tagged version should be the smaller. *)
Theorem cmpSemver_compares_truncated_tags :
  cmpSemver (Some (TStr "1.2.3")) (Some (TStr "1.2.3-beta")) = Js.of_Z 1 /\
  (same_numbers (parse (Some (TStr "1.0.0-rc-1"))) (parse (Some (TStr "1.0.0-rc-2"))) /\
   prerelease_tag (Some (TStr "1.0.0-rc-1")) = "rc-1"%string /\
   prerelease_tag (Some (TStr "1.0.0-rc-2")) = "rc-2"%string /\
   sign_number (String.compare (prerelease_tag (Some (TStr "1.0.0-rc-1")))
                               (prerelease_tag (Some (TStr "1.0.0-rc-2"))))
   = Js.of_Z (-1) /\
   pre (parse (Some (TStr "1.0.0-rc-1"))) = "rc"%string /\
   pre (parse (Some (TStr "1.0.0-rc-2"))) = "rc"%string /\
   cmpSemver (Some (TStr "1.0.0-rc-1")) (Some (TStr "1.0.0-rc-2")) = Js.of_Z 0) /\
  (same_numbers (parse (Some (TStr "1.2.3--x"))) (parse (Some (TStr "1.2.3"))) /\
   prerelease_tag (Some (TStr "1.2.3--x")) = "-x"%string /\
   prerelease_tag (Some (TStr "1.2.3")) = EmptyString /\
   looksLikeSemver (Some (TStr "1.2.3--x")) = true /\
   pre (parse (Some (TStr "1.2.3--x"))) = EmptyString /\
   cmpSemver (Some (TStr "1.2.3--x")) (Some (TStr "1.2.3")) = Js.of_Z 0 /\
   cmpSemver (Some (TStr "1.2.3--x")) (Some (TStr "1.2.3")) <> Js.of_Z (-1)).
Proof. repeat split; discriminate. Qed.

Lemma cmpSemver_on_tags_without_dash_example :
  cmpSemver (Some (TStr "v2.0.0-rc.1")) (Some (TStr "2.0")) = Js.of_Z (-1) /\
  cmpSemver (Some (TStr "2.0.0")) (Some (TStr "V2.0.0-rc.1")) = Js.of_Z 1 /\
  cmpSemver (Some (TStr "2.0.0-alpha")) (Some (TStr "2.0.0-beta")) = Js.of_Z (-1).
Proof.
  split; [ | split ].
  - apply (cmpSemver_on_tags_without_dash (Some (TStr "v2.0.0-rc.1")) (Some (TStr "2.0")));
      repeat split; reflexivity.
  - apply (cmpSemver_on_tags_without_dash (Some (TStr "2.0.0")) (Some (TStr "V2.0.0-rc.1")));
      repeat split; reflexivity.
  - apply (cmpSemver_on_tags_without_dash (Some (TStr "2.0.0-alpha")) (Some (TStr "2.0.0-beta")));
      repeat split; reflexivity.
Qed.

(* ================================================================== *)
(** * The comparator registry *)
(* ================================================================== *)



Section RegistryResults.

Variable Date_parse : string -> option Z.




End RegistryResults.



(* ================================================================== *)
(** * Missing and unparseable fields *)
(* ================================================================== *)

Section Lowest.

Variable Date_parse : string -> option Z.

Lemma sign_build_desc_by_build (a b : release) :
  by_build b a <> Eq ->
  Js.sign (build_desc Date_parse a b) = by_build b a.
Proof.
  intros H. rewrite sign_build_desc.
  destruct (by_build b a); simpl; congruence.
Qed.

(** What [Number], respectively [new Date(..).getTime()], does not
    read as a finite number goes to negative infinity, the lowest key
    there is: so for [undefined] and for text that does not parse.
    [build-desc] sorts the builds 3, 1, undefined, 2 into 3, 2, 1,
    undefined. *)
Lemma not_finite_is_lowest :
  toBuild None = Js.NegInf /\
  toBuild (Some (BStr "abc")) = Js.NegInf /\
  (forall b, Js.isFinite (Number b) = false -> toBuild b = Js.NegInf) /\
  toDate Date_parse None = Js.NegInf /\
  (forall d, Js.isFinite (Date_getTime Date_parse d) = false ->
             toDate Date_parse d = Js.NegInf) /\
  (forall b, ncmp Js.NegInf (toBuild b) <> Gt) /\
  (forall d, ncmp Js.NegInf (toDate Date_parse d) <> Gt) /\
  (forall r3 r1 ru r2 : release,
      build r3 = Some (BNum 3) -> build r1 = Some (BNum 1) ->
      build ru = None -> build r2 = Some (BNum 2) ->
      Array_sort (sorters_get Date_parse "build-desc") [r3; r1; ru; r2]
      = Some [r3; r2; r1; ru]).
Proof.
  repeat split; try reflexivity.
  - intros b H. unfold toBuild. rewrite H. reflexivity.
  - intros d H. unfold toDate. rewrite H. reflexivity.
  - intros b. destruct (toBuild_cases b) as [-> | [q ->]]; discriminate.
  - intros d. destruct (toDate_cases Date_parse d) as [-> | [q ->]]; discriminate.
  - intros r3 r1 ru r2 H3 H1 Hu H2.
    change (Array_sort (sorters_get Date_parse "build-desc") [r3; r1; ru; r2])
      with (Some (sort_by (build_desc Date_parse) [r3; r1; ru; r2])).
    f_equal. cbn [sort_by fold_right insert].
    assert (Js.sign (build_desc Date_parse ru r2) = Gt) as ->
        by (rewrite sign_build_desc_by_build; unfold by_build; rewrite Hu, H2;
            [ reflexivity | discriminate ]).
    cbn [insert].
    assert (Js.sign (build_desc Date_parse r1 r2) = Gt) as ->
        by (rewrite sign_build_desc_by_build; unfold by_build; rewrite H1, H2;
            [ reflexivity | discriminate ]).
    cbn [insert].
    assert (Js.sign (build_desc Date_parse r1 ru) = Lt) as ->
        by (rewrite sign_build_desc_by_build; unfold by_build; rewrite H1, Hu;
            [ reflexivity | discriminate ]).
    cbn [insert].
    assert (Js.sign (build_desc Date_parse r3 r2) = Lt) as ->
        by (rewrite sign_build_desc_by_build; unfold by_build; rewrite H3, H2;
            [ reflexivity | discriminate ]).
    reflexivity.
Qed.

End Lowest.

Lemma not_finite_is_lowest_example :
  toBuild (Some (BStr "1e999")) = Js.NegInf /\
  toDate Host.Date_parse (Some (TStr "soon")) = Js.NegInf /\
  Array_sort (sorters_get Host.Date_parse "build-desc")
    [ bare (Some (TStr "3.0.0")) (Some (BNum 3));
      bare (Some (TStr "1.0.0")) (Some (BNum 1));
      bare (Some (TStr "9.9.9")) None;
      bare (Some (TStr "2.0.0")) (Some (BNum 2)) ]
  = Some [ bare (Some (TStr "3.0.0")) (Some (BNum 3));
           bare (Some (TStr "2.0.0")) (Some (BNum 2));
           bare (Some (TStr "1.0.0")) (Some (BNum 1));
           bare (Some (TStr "9.9.9")) None ].
Proof.
  pose proof (not_finite_is_lowest Host.Date_parse)
    as (_ & _ & Hb & _ & Hd & _ & _ & Hsort).
  split; [ apply Hb; reflexivity | ].
  split; [ apply Hd; reflexivity | ].
  apply Hsort; reflexivity.
Qed.

(** C7: a build or a date that is [null] in [versions.json] is a
    missing value: [render] shows no build for it and the filter skips
    it, as for [undefined].  [toBuild] and [toDate] send [undefined]
    and text that does not parse to negative infinity, and the example
    of the specification comes out as 3, 2, 1, undefined; but they read
    [null] as the number 0.  So a record without build is not always
    lowest:
    under [build-desc] the record whose build is [null] stands before
    build -1 and before the record whose build is [undefined], and
    under [date-asc] the record whose date is [null] stands after a
    release of 1969. *)
Theorem null_is_not_lowest (Date_parse : string -> option Z) :
  (toBuild None = Js.NegInf /\
   toBuild (Some (BStr "abc")) = Js.NegInf /\
   toDate Date_parse None = Js.NegInf /\
   Array_sort (sorters_get Date_parse "build-desc")
     [ bare (Some (TStr "3.0.0")) (Some (BNum 3));
       bare (Some (TStr "1.0.0")) (Some (BNum 1));
       bare (Some (TStr "9.9.9")) None;
       bare (Some (TStr "2.0.0")) (Some (BNum 2)) ]
   = Some [ bare (Some (TStr "3.0.0")) (Some (BNum 3));
            bare (Some (TStr "2.0.0")) (Some (BNum 2));
            bare (Some (TStr "1.0.0")) (Some (BNum 1));
            bare (Some (TStr "9.9.9")) None ]) /\
  (shown_build (Some BNull) = shown_build None /\
   Boolean (item_of_build (Some BNull)) = Boolean (item_of_build None) /\
   render_labels (bare (Some (TStr "1.0.0")) (Some BNull))
   = render_labels (bare (Some (TStr "1.0.0")) None) /\
   hay (bare (Some (TStr "1.0.0")) (Some BNull))
   = hay (bare (Some (TStr "1.0.0")) None)) /\
  (toBuild (Some BNull) = Js.of_Z 0 /\
   toBuild (Some BNull) <> Js.NegInf /\
   toDate Date_parse (Some TNull) = Js.of_Z 0 /\
   toDate Date_parse (Some TNull) <> Js.NegInf /\
   ncmp (toBuild (Some (BNum (-1)))) (toBuild (Some BNull)) = Lt /\
   ncmp (toBuild None) (toBuild (Some BNull)) = Lt) /\
  Array_sort (sorters_get Date_parse "build-desc")
    [ bare (Some (TStr "0.9.0")) (Some (BNum (-1)));
      bare (Some (TStr "0.8.0")) None;
      bare (Some (TStr "1.0.0")) (Some BNull) ]
  = Some [ bare (Some (TStr "1.0.0")) (Some BNull);
           bare (Some (TStr "0.9.0")) (Some (BNum (-1)));
           bare (Some (TStr "0.8.0")) None ] /\
  Array_sort (sorters_get Host.Date_parse "date-asc")
    [ dated (Some TNull); dated (Some (TStr "1969-07-20")); dated None ]
  = Some [ dated None; dated (Some (TStr "1969-07-20")); dated (Some TNull) ].
Proof. repeat split; discriminate. Qed.

(* ================================================================== *)
(** * The filter and sort pipeline *)
(* ================================================================== *)

Section Pipeline.

Variable Date_parse : string -> option Z.

Lemma sorters_get_own (k : string) (c : comparator) :
  assoc k (sorters Date_parse) = Some c -> sorters_get Date_parse k = Own c.
Proof. unfold sorters_get. intros ->. reflexivity. Qed.

Lemma in_sorters_own (k : string) (c : comparator) :
  assoc k (sorters Date_parse) = Some c -> in_sorters Date_parse k = true.
Proof. unfold in_sorters. intros H. rewrite (sorters_get_own k c H). reflexivity. Qed.

Lemma own_consistent (k : string) (c : comparator) :
  assoc k (sorters Date_parse) = Some c -> consistent c.
Proof.
  intros H. apply (registry_consistent Date_parse k). apply assoc_In, H.
Qed.

(** What [build-desc] and [build-asc] tie, every comparator of the
    registry ties. *)
Lemma build_ties_refine (k k' : string) (c c' : comparator) (x y : release) :
  k = "build-desc"%string \/ k = "build-asc"%string ->
  assoc k (sorters Date_parse) = Some c ->
  assoc k' (sorters Date_parse) = Some c' ->
  ties c x y = true -> ties c' x y = true.
Proof.
  intros Hk Hc Hc' T.
  assert (by_build x y = Eq /\ by_date Date_parse x y = Eq /\ by_version x y = Eq)
    as (Eb & Ed & Ev).
  { apply ties_true in T.
    destruct Hk as [-> | ->]; simpl in Hc; injection Hc as <-.
    - rewrite sign_build_desc in T.
      rewrite (cmp_anti _ order_by_build y x),
              (cmp_anti _ (order_by_date Date_parse) y x),
              (cmp_anti _ order_by_version y x).
      destruct (by_build y x); simpl in T; try discriminate.
      destruct (by_date Date_parse y x); simpl in T; try discriminate.
      rewrite T. repeat split; reflexivity.
    - rewrite sign_build_asc in T.
      destruct (by_build x y); simpl in T; try discriminate.
      destruct (by_date Date_parse x y); simpl in T; try discriminate.
      rewrite T. repeat split; reflexivity. }
  pose proof (cmp_eq_sym _ order_by_build x y Eb) as Eb'.
  pose proof (cmp_eq_sym _ (order_by_date Date_parse) x y Ed) as Ed'.
  pose proof (cmp_eq_sym _ order_by_version x y Ev) as Ev'.
  apply ties_true.
  destruct (registry_cases Date_parse k' c' (assoc_In k' _ c' Hc'))
    as [-> | [-> | [-> | [-> | [-> | ->]]]]];
    rewrite ?sign_build_desc, ?sign_build_asc, ?sign_semver_desc,
      ?sign_semver_asc, ?sign_date_desc, ?sign_date_asc,
      ?Eb, ?Ed, ?Ev, ?Eb', ?Ed', ?Ev'; reflexivity.
Qed.

(** The two views, unfolded: the filtered records sorted twice, and
    sorted once. *)
Lemma views_unfold
  (dat flt : list release) (value old new : string) (cold cnew : comparator) :
  assoc old (sorters Date_parse) = Some cold ->
  assoc new (sorters Date_parse) = Some cnew ->
  resorted_view Date_parse dat flt value old new
  = sort_by cnew (sort_by cold (filter (keeps (Js.trim (Js.toLowerCase value))) dat)) /\
  pipeline_view Date_parse dat flt value new
  = sort_by cnew (filter (keeps (Js.trim (Js.toLowerCase value))) dat).
Proof.
  intros Hold Hnew.
  unfold resorted_view, pipeline_view, applyFilter, setSort. cbn [sort data].
  rewrite (sorters_get_own old cold Hold), (sorters_get_own new cnew Hnew).
  cbn [Array_sort snd filtered sort].
  rewrite (in_sorters_own new cnew Hnew), (sorters_get_own new cnew Hnew).
  split; reflexivity.
Qed.

(** The shortest session: after the filter ran under [old], the
    previous comparator is the only one to look at. *)
Lemma resorted_view_agrees
  (dat flt : list release) (value old new : string) (cold cnew : comparator) :
  assoc old (sorters Date_parse) = Some cold ->
  assoc new (sorters Date_parse) = Some cnew ->
  (forall x y,
      In x (filter (keeps (Js.trim (Js.toLowerCase value))) dat) ->
      In y (filter (keeps (Js.trim (Js.toLowerCase value))) dat) ->
      ties cnew x y = true -> ties cold x y = true) ->
  resorted_view Date_parse dat flt value old new
  = pipeline_view Date_parse dat flt value new.
Proof.
  intros Hold Hnew H.
  destruct (views_unfold dat flt value old new cold cnew Hold Hnew) as [-> ->].
  apply sort_by_resort; try assumption.
  - apply (own_consistent old), Hold.
  - apply (own_consistent new), Hnew.
Qed.

(** What a sort under the key [k] returns when it returns: the stable
    sort by the comparator of [k], or the array as it was when [k] is
    no key of the registry. *)
Lemma Array_sort_cases (k : string) (l l' : list release) :
  Array_sort (sorters_get Date_parse k) l = Some l' ->
  (exists c, assoc k (sorters Date_parse) = Some c /\ l' = sort_by c l) \/ l' = l.
Proof.
  unfold sorters_get.
  destruct (assoc k (sorters Date_parse)) as [c | ] eqn:E; cbn [Array_sort].
  - intros [= <-]. left. exists c. split; reflexivity.
  - destruct (assoc k Object_prototype) as [[ | | ] | ]; cbn [Array_sort];
      try destruct (List.length l <? 2)%nat; intros [= <-]; right; reflexivity.
Qed.

(** The view and the key after [setSort]. *)
Lemma setSort_view (name : string) (st : state) :
  filtered (snd (setSort Date_parse name st)) = filtered st \/
  exists c,
    assoc (sort (snd (setSort Date_parse name st))) (sorters Date_parse) = Some c /\
    filtered (snd (setSort Date_parse name st)) = sort_by c (filtered st).
Proof.
  unfold setSort.
  destruct (Array_sort _ (filtered st)) as [l | ] eqn:E; cbn [snd filtered sort];
    [ | left; reflexivity ].
  destruct (Array_sort_cases _ _ _ E) as [(c & Hc & ->) | ->];
    [ right; exists c; split; [ exact Hc | reflexivity ] | left; reflexivity ].
Qed.

Lemma keeps_blank (q : string) (l : list release) :
  Js.nonempty q = false -> filter (keeps q) l = l.
Proof.
  intros Hq. unfold keeps. rewrite Hq. cbn [negb].
  induction l as [ | x l IH]; [ reflexivity | ]. cbn [filter]. rewrite IH.
  reflexivity.
Qed.

(** While only the sort key changes, the view holds the records the
    filter kept. *)
Lemma since_filter_perm
  (dat : list release) (value : string) (keys : list string) (st : state) :
  since_filter Date_parse dat value keys st ->
  Permutation (filtered st) (filter (keeps (Js.trim (Js.toLowerCase value))) dat).
Proof.
  induction 1 as [st Hd Hf | fromUrl st Hq Hf | name keys st Hs IH].
  - unfold applyFilter in *. rewrite Hd in *.
    destruct (Array_sort _ (filter _ dat)) as [l | ] eqn:E; [ | discriminate Hf ].
    cbn [snd filtered].
    destruct (Array_sort_cases _ _ _ E) as [(c & _ & ->) | ->];
      [ apply sort_by_perm | apply Permutation_refl ].
  - rewrite (keeps_blank _ dat Hq). unfold load in *.
    destruct (Array_sort _ dat) as [l | ] eqn:E; [ | discriminate Hf ].
    cbn [snd filtered].
    destruct (Array_sort_cases _ _ _ E) as [(c & _ & ->) | ->];
      [ apply sort_by_perm | apply Permutation_refl ].
  - destruct (setSort_view name st) as [-> | (c & _ & ->)]; [ exact IH | ].
    eapply perm_trans; [ apply sort_by_perm | exact IH ].
Qed.

(** While only the sort key changes, and every comparator used ties
    what [cnew] ties, the view keeps what [cnew] ties in the order of
    the dataset. *)
Lemma since_filter_classes
  (dat : list release) (value : string) (keys : list string) (st : state)
  (cnew : comparator) :
  since_filter Date_parse dat value keys st ->
  (forall k c x y,
      In k keys -> assoc k (sorters Date_parse) = Some c ->
      In x (filter (keeps (Js.trim (Js.toLowerCase value))) dat) ->
      In y (filter (keeps (Js.trim (Js.toLowerCase value))) dat) ->
      ties cnew x y = true -> ties c x y = true) ->
  same_classes cnew (filter (keeps (Js.trim (Js.toLowerCase value))) dat)
    (filtered st).
Proof.
  induction 1 as [st Hd Hf | fromUrl st Hq Hf | name keys st Hs IH]; intros H.
  - unfold applyFilter in *. rewrite Hd in *.
    destruct (Array_sort _ (filter _ dat)) as [l | ] eqn:E; [ | discriminate Hf ].
    cbn [snd filtered].
    destruct (Array_sort_cases _ _ _ E) as [(c & Hc & ->) | ->];
      [ | apply same_classes_refl ].
    apply same_classes_sort; [ apply (own_consistent _ _ Hc) | | apply same_classes_refl ].
    intros x y. apply (H (sort st) c); [ left; reflexivity | exact Hc ].
  - rewrite (keeps_blank _ dat Hq) in *.
    assert (exists k, sort (snd (load Date_parse dat fromUrl st)) = k /\
                      Array_sort (sorters_get Date_parse k) dat
                      = Some (filtered (snd (load Date_parse dat fromUrl st))))
      as (k & Ek & E).
    { unfold load in *.
      destruct (Array_sort _ dat) as [l | ] eqn:E; [ | discriminate Hf ].
      cbn [snd filtered sort]. eexists. split; [ reflexivity | exact E ]. }
    rewrite Ek in H.
    destruct (Array_sort_cases _ _ _ E) as [(c & Hc & ->) | ->];
      [ | apply same_classes_refl ].
    apply same_classes_sort; [ apply (own_consistent _ _ Hc) | | apply same_classes_refl ].
    intros x y. apply (H k c); [ left; reflexivity | exact Hc ].
  - assert (same_classes cnew (filter (keeps (Js.trim (Js.toLowerCase value))) dat)
              (filtered st)) as Hv.
    { apply IH. intros k c x y Hk. apply H. right. exact Hk. }
    destruct (setSort_view name st) as [-> | (c & Hc & ->)]; [ exact Hv | ].
    apply same_classes_sort; [ apply (own_consistent _ _ Hc) | | exact Hv ].
    intros x y.
    apply (H (sort (snd (setSort Date_parse name st))) c);
      [ left; reflexivity | exact Hc ].
Qed.

(** C2, amended: while only the sort key changes, going to a key of
    the registry gives a permutation of the view of the full pipeline,
    and both are sorted under the new comparator.  The two are the same
    sequence whenever every comparator of the registry whose key was in
    force since the view was computed ties every two records of the
    filtered dataset that the new comparator ties; so after every change
    to [build-desc] or [build-asc], and whenever the new comparator ties
    no two different records of the filtered dataset. *)
Theorem setSort_agrees_with_pipeline
  (dat : list release) (value : string) (keys : list string) (st : state)
  (new : string) (cnew : comparator) (flt : list release) :
  since_filter Date_parse dat value keys st ->
  assoc new (sorters Date_parse) = Some cnew ->
  Permutation (filtered (snd (setSort Date_parse new st)))
    (pipeline_view Date_parse dat flt value new) /\
  sorted cnew (filtered (snd (setSort Date_parse new st))) /\
  sorted cnew (pipeline_view Date_parse dat flt value new) /\
  ((forall k c x y,
       In k keys -> assoc k (sorters Date_parse) = Some c ->
       In x (filter (keeps (Js.trim (Js.toLowerCase value))) dat) ->
       In y (filter (keeps (Js.trim (Js.toLowerCase value))) dat) ->
       ties cnew x y = true -> ties c x y = true) ->
   filtered (snd (setSort Date_parse new st))
   = pipeline_view Date_parse dat flt value new) /\
  (new = "build-desc"%string \/ new = "build-asc"%string ->
   filtered (snd (setSort Date_parse new st))
   = pipeline_view Date_parse dat flt value new) /\
  ((forall x y,
       In x (filter (keeps (Js.trim (Js.toLowerCase value))) dat) ->
       In y (filter (keeps (Js.trim (Js.toLowerCase value))) dat) ->
       ties cnew x y = true -> x = y) ->
   filtered (snd (setSort Date_parse new st))
   = pipeline_view Date_parse dat flt value new).
Proof.
  intros Hs Hnew.
  assert (consistent cnew) as Cnew by (apply (own_consistent new), Hnew).
  assert (filtered (snd (setSort Date_parse new st)) = sort_by cnew (filtered st))
    as ->.
  { unfold setSort.
    rewrite (in_sorters_own new cnew Hnew), (sorters_get_own new cnew Hnew).
    reflexivity. }
  assert (pipeline_view Date_parse dat flt value new
          = sort_by cnew (filter (keeps (Js.trim (Js.toLowerCase value))) dat))
    as ->.
  { unfold pipeline_view, applyFilter. cbn [sort data].
    rewrite (sorters_get_own new cnew Hnew). reflexivity. }
  assert ((forall k c x y,
             In k keys -> assoc k (sorters Date_parse) = Some c ->
             In x (filter (keeps (Js.trim (Js.toLowerCase value))) dat) ->
             In y (filter (keeps (Js.trim (Js.toLowerCase value))) dat) ->
             ties cnew x y = true -> ties c x y = true) ->
          sort_by cnew (filtered st)
          = sort_by cnew (filter (keeps (Js.trim (Js.toLowerCase value))) dat))
    as Hgen.
  { intros H. apply (same_classes_resort cnew _ _ Cnew).
    apply (since_filter_classes dat value keys st cnew Hs H). }
  split; [ | split; [ | split; [ | split; [ | split ] ] ] ].
  - eapply perm_trans; [ apply sort_by_perm | ].
    eapply perm_trans; [ apply (since_filter_perm dat value keys st Hs) | ].
    apply Permutation_sym, sort_by_perm.
  - apply sort_by_sorted, Cnew.
  - apply sort_by_sorted, Cnew.
  - exact Hgen.
  - intros Hk. apply Hgen. intros k c x y _ Hc _ _.
    apply (build_ties_refine new k cnew c x y Hk Hnew Hc).
  - intros H. apply Hgen. intros k c x y _ Hc Hx Hy T.
    rewrite (H x y Hx Hy T).
    apply (ties_refl c (own_consistent k c Hc)).
Qed.

End Pipeline.

(** C2 as stated fails: [date-desc] ties the two releases, [semver-asc]
    does not.  Going from [semver-asc] to [date-desc] keeps the order
    [semver-asc] left, the full pipeline keeps the order of the data. *)
Lemma setSort_differs_from_pipeline :
  resorted_view Host.Date_parse [release_2_0; release_1_0] []
    "" "semver-asc" "date-desc" = [release_1_0; release_2_0] /\
  pipeline_view Host.Date_parse [release_2_0; release_1_0] []
    "" "date-desc" = [release_2_0; release_1_0] /\
  resorted_view Host.Date_parse [release_2_0; release_1_0] []
    "" "semver-asc" "date-desc"
  <> pipeline_view Host.Date_parse [release_2_0; release_1_0] []
       "" "date-desc".
Proof. repeat split; discriminate. Qed.

Lemma setSort_agrees_with_pipeline_witness :
  since_filter Host.Date_parse four_releases " 0 "
    ["toString"; "build-desc"; "date-asc"]%string session_sorted /\
  filtered (snd (setSort Host.Date_parse "semver-desc" session_sorted))
  = pipeline_view Host.Date_parse four_releases [] " 0 " "semver-desc".
Proof.
  assert (since_filter Host.Date_parse four_releases " 0 "
            ["toString"; "build-desc"; "date-asc"]%string session_sorted) as Hs.
  { apply (since_setSort Host.Date_parse four_releases " 0 " "toString"
             ["build-desc"; "date-asc"]%string
             (snd (setSort Host.Date_parse "build-desc" session_filtered))).
    apply (since_setSort Host.Date_parse four_releases " 0 " "build-desc"
             ["date-asc"]%string session_filtered).
    apply (since_applyFilter Host.Date_parse four_releases " 0 "
             {| data := four_releases; filtered := []; sort := "date-asc" |});
      reflexivity. }
  split; [ exact Hs | ].
  destruct (setSort_agrees_with_pipeline Host.Date_parse four_releases " 0 "
              ["toString"; "build-desc"; "date-asc"]%string session_sorted
              "semver-desc" (semver_desc Host.Date_parse) [] Hs eq_refl)
    as (_ & _ & _ & _ & _ & Hdistinct).
  apply Hdistinct.
  intros x y Hx Hy.
  vm_compute in Hx, Hy.
  destruct Hx as [<- | [<- | [<- | [<- | []]]]];
    destruct Hy as [<- | [<- | [<- | [<- | []]]]];
    vm_compute; congruence.
Defined.

(** The comparator in force just before the change does not decide
    alone.  After the filter ran under [semver-asc] and the key went
    to [date-desc], going to [date-asc] leaves the two releases in the
    order [semver-asc] gave them, though [date-desc] ties all that
    [date-asc] ties. *)
Lemma earlier_keys_show :
  since_filter Host.Date_parse [release_2_0; release_1_0] ""
    ["date-desc"; "semver-asc"]%string session_twins /\
  (forall x y, ties (date_asc Host.Date_parse) x y = true ->
               ties (date_desc Host.Date_parse) x y = true) /\
  filtered (snd (setSort Host.Date_parse "date-asc" session_twins))
  = [release_1_0; release_2_0] /\
  pipeline_view Host.Date_parse [release_2_0; release_1_0] [] "" "date-asc"
  = [release_2_0; release_1_0].
Proof.
  split; [ | split; [ | split; reflexivity ] ].
  - apply (since_setSort Host.Date_parse [release_2_0; release_1_0] "" "date-desc"
             ["semver-asc"]%string
             (snd (applyFilter Host.Date_parse ""
                     {| data := [release_2_0; release_1_0]; filtered := [];
                        sort := "semver-asc" |}))).
    apply (since_applyFilter Host.Date_parse [release_2_0; release_1_0] ""
             {| data := [release_2_0; release_1_0]; filtered := [];
                sort := "semver-asc" |});
      reflexivity.
  - intros x y T. apply ties_true in T. apply ties_true.
    rewrite sign_date_asc in T. rewrite sign_date_desc.
    rewrite (cmp_anti _ (order_by_date Host.Date_parse) x y),
            (cmp_anti _ order_by_build x y).
    destruct (by_date Host.Date_parse x y); simpl in T; try discriminate.
    rewrite T. reflexivity.
Qed.

(* ================================================================== *)
(** * The text filter *)
(* ================================================================== *)

Lemma prefix_append (q : string) : forall h : string,
  prefix q h = true <-> exists s, h = (q ++ s)%string.
Proof.
  induction q as [ | a q IH]; intros h.
  - split; [ intros _; exists h; reflexivity | destruct h; reflexivity ].
  - destruct h as [ | b h]; simpl.
    + split; [ discriminate | intros [s Hs]; discriminate ].
    + destruct (ascii_dec a b) as [-> | Hab].
      * rewrite IH. split; intros [s Hs]; exists s; congruence.
      * split; [ discriminate | intros [s Hs]; congruence ].
Qed.

(** [includes] finds the substrings, and nothing else. *)
Lemma includes_substring (h q : string) :
  Js.includes h q = true <-> exists p s, h = (p ++ q ++ s)%string.
Proof.
  induction h as [ | c h IH].
  - cbn [Js.includes]. rewrite orb_false_r, prefix_append. split.
    + intros [s Hs]. exists EmptyString, s. exact Hs.
    + intros (p & s & H). exists s. destruct p; [ exact H | discriminate ].
  - cbn [Js.includes]. rewrite orb_true_iff, prefix_append, IH. split.
    + intros [[s Hs] | (p & s & Hs)].
      * exists EmptyString, s. exact Hs.
      * exists (String c p), s. simpl. congruence.
    + intros ([ | c' p] & s & Hs).
      * left. exists s. exact Hs.
      * right. exists p, s. simpl in Hs. congruence.
Qed.

Lemma pos_digits_nonempty (fuel : nat) : forall (z : Z) (c : ascii) (acc : string),
  Js.nonempty (Js.pos_digits fuel z (String c acc)) = true.
Proof.
  induction fuel as [ | f IH]; intros z c acc; simpl; [ reflexivity | ].
  destruct (z <? 10); [ reflexivity | apply IH ].
Qed.

Lemma string_of_Z_nonempty (z : Z) : Js.nonempty (Js.string_of_Z z) = true.
Proof.
  unfold Js.string_of_Z. destruct (z <? 0); [ reflexivity | ].
  cbn [Js.pos_digits]. destruct (Z.abs z <? 10); [ reflexivity | ].
  apply pos_digits_nonempty.
Qed.

Lemma map_filter_strings (l : list string) :
  map item_string (filter Boolean (map IStr l)) = filter Js.nonempty l.
Proof.
  induction l as [ | x l IH]; [ reflexivity | ].
  cbn [map filter Boolean]. destruct (Js.nonempty x); cbn [map item_string];
    rewrite IH; reflexivity.
Qed.

(** Away from the build number 0 the haystack of [applyFilter] is the
    searchable text. *)
Lemma hay_searchable_text (it : release) :
  build it <> Some (BNum 0) -> hay it = searchable_text it.
Proof.
  intros Hb. unfold hay, searchable_text. do 2 f_equal.
  rewrite !filter_app, !map_app, !map_filter_strings.
  f_equal.
  destruct it as [v b d c ch li tg]; cbn [version date channel build] in *.
  assert (map item_string (filter Boolean [item_of_build b])
          = filter Js.nonempty [build_text b]) as Eb.
  { destruct b as [[ | z | x] | ]; cbn [item_of_build build_text filter Boolean].
    - reflexivity.
    - rewrite string_of_Z_nonempty.
      destruct (Z.eqb_spec z 0) as [-> | _]; [ congruence | reflexivity ].
    - destruct (Js.nonempty x); reflexivity.
    - reflexivity. }
  change [item_of_text v; item_of_text d; item_of_text c; item_of_build b]
    with ([item_of_text v; item_of_text d; item_of_text c] ++ [item_of_build b]).
  change [text v; text d; text c; build_text b]
    with ([text v; text d; text c] ++ [build_text b]).
  rewrite !filter_app, map_app, Eb. f_equal.
  destruct v as [[ | [ | ? ?]] | ], d as [[ | [ | ? ?]] | ],
    c as [[ | [ | ? ?]] | ]; reflexivity.
Qed.

(** Except for records whose build is the number 0, [applyFilter] keeps
    a record exactly when the query is a substring of its searchable
    text; the empty query keeps every record. *)
Lemma keeps_passes (q : string) (it : release) :
  build it <> Some (BNum 0) -> keeps q it = passes q it.
Proof.
  intros Hb. unfold keeps, passes. rewrite <- (hay_searchable_text it Hb).
  destruct q; [ | reflexivity ].
  symmetry. apply includes_substring.
  exists EmptyString, (hay it). reflexivity.
Qed.

(** C6: a record whose build is the number 0 loses its build in the
    haystack ([Boolean(0)] is false): the query [0] is a substring of
    the searchable text of version 1.2.3, build 0, and the filter drops
    the record all the same. *)
Theorem build_zero_is_not_searched (Date_parse : string -> option Z) :
  searchable_text (bare (Some (TStr "1.2.3")) (Some (BNum 0))) = "1.2.3 0"%string /\
  passes "0" (bare (Some (TStr "1.2.3")) (Some (BNum 0))) = true /\
  hay (bare (Some (TStr "1.2.3")) (Some (BNum 0))) = "1.2.3"%string /\
  keeps "0" (bare (Some (TStr "1.2.3")) (Some (BNum 0))) = false /\
  applyFilter Date_parse "0"
    {| data := [bare (Some (TStr "1.2.3")) (Some (BNum 0))];
       filtered := []; sort := "build-desc" |}
  = (Done, {| data := [bare (Some (TStr "1.2.3")) (Some (BNum 0))];
              filtered := []; sort := "build-desc" |}).
Proof. repeat split. Qed.

(* ================================================================== *)
(** * The session *)
(* ================================================================== *)

Section Session.

Variable Date_parse : string -> option Z.

Lemma sorters_get_consistent (k : string) (c : comparator) :
  sorters_get Date_parse k = Own c -> consistent c.
Proof.
  unfold sorters_get. destruct (assoc k (sorters Date_parse)) as [c' | ] eqn:E.
  - intros [= <-]. apply (own_consistent Date_parse k c' E).
  - destruct (assoc k Object_prototype); discriminate.
Qed.

Lemma Array_sort_again (k : string) (l l' : list release) :
  Array_sort (sorters_get Date_parse k) l = Some l' ->
  forall m, Array_sort (sorters_get Date_parse k) l' = Some m -> m = l'.
Proof.
  destruct (sorters_get Date_parse k) as [c | [ | | ] | ] eqn:E;
    cbn [Array_sort]; intros H m Hm; try congruence.
  - injection H as <-. injection Hm as <-.
    apply sort_by_idem. apply (sorters_get_consistent k c E).
  - destruct (List.length l' <? 2)%nat; congruence.
Qed.

Lemma Array_sort_inherited (m : inherited) (l l' : list release) :
  Array_sort (Inherited m) l = Some l' -> l' = l.
Proof.
  destruct m; cbn [Array_sort]; try congruence.
  destruct (List.length l <? 2)%nat; congruence.
Qed.

Lemma settled_initial : settled Date_parse initial.
Proof. intros l. cbn. congruence. Qed.

Lemma settled_applyFilter (value : string) (st : state) :
  settled Date_parse st -> settled Date_parse (snd (applyFilter Date_parse value st)).
Proof.
  intros Hs. unfold applyFilter.
  destruct (Array_sort _ (filter _ (data st))) as [l | ] eqn:E; cbn [snd].
  - intros m. cbn [sort filtered]. apply (Array_sort_again _ _ _ E).
  - exact Hs.
Qed.

Lemma settled_setSort (value : string) (st : state) :
  settled Date_parse (snd (setSort Date_parse value st)).
Proof.
  unfold setSort.
  destruct (Array_sort _ (filtered st)) as [l | ] eqn:E; cbn [snd];
    intros m; cbn [sort filtered].
  - apply (Array_sort_again _ _ _ E).
  - rewrite E. discriminate.
Qed.

Lemma settled_load (arr : list release) (fromUrl : option string) (st : state) :
  settled Date_parse (snd (load Date_parse arr fromUrl st)).
Proof.
  unfold load.
  destruct (Array_sort _ arr) as [l | ] eqn:E; cbn [snd];
    intros m; cbn [sort filtered].
  - apply (Array_sort_again _ _ _ E).
  - destruct (sorters_get Date_parse _) as [c | i | ];
      [ discriminate | apply Array_sort_inherited | discriminate ].
Qed.

Lemma reachable_settled (st : state) : reachable Date_parse st -> settled Date_parse st.
Proof.
  induction 1.
  - apply settled_initial.
  - apply settled_load.
  - apply settled_applyFilter. assumption.
  - apply settled_setSort.
Qed.

(** A name that [sorters] does not know, neither as its own nor
    through its prototype, leaves the session as it is. *)
Lemma setSort_unknown (value : string) (st : state) :
  in_sorters Date_parse value = false -> reachable Date_parse st ->
  snd (setSort Date_parse value st) = st.
Proof.
  intros Hv Hr. pose proof (reachable_settled st Hr) as Hs.
  unfold setSort. rewrite Hv.
  destruct (Array_sort _ (filtered st)) as [l | ] eqn:E; cbn [snd].
  - rewrite (Hs l E). destruct st; reflexivity.
  - destruct st; reflexivity.
Qed.

(** C9: [value in sorters] also holds for the names [sorters]
    inherits from [Object.prototype].  [toString] is no key of the
    registry, yet [setSort] stores it as the sort key, whatever the
    key was before. *)
Theorem setSort_accepts_inherited_name (st : state) :
  assoc "toString" (sorters Date_parse) = None /\
  in_sorters Date_parse "toString" = true /\
  sort (snd (setSort Date_parse "toString" st)) = "toString"%string /\
  setSort Date_parse "toString" initial
  = (Done, {| data := []; filtered := []; sort := "toString" |}).
Proof.
  repeat split.
Qed.

End Session.

(* ================================================================== *)
(** * More on versions and comparators *)
(* ================================================================== *)

Lemma string_compare_refl (p : string) : String.compare p p = Eq.
Proof. apply (cmp_refl _ order_string). Qed.

Lemma pre_cmp_Eq (p q : string) : pre_cmp p q = Eq <-> p = q.
Proof.
  unfold pre_cmp. split.
  - destruct (bool_cmp _ _); simpl; try discriminate.
    apply String.compare_eq_iff.
  - intros ->. destruct (Js.nonempty q); simpl; apply string_compare_refl.
Qed.

Lemma lex_Eq (c d : comparison) : lex c d = Eq <-> c = Eq /\ d = Eq.
Proof. destruct c; simpl; split; try tauto; intros; try discriminate; tauto. Qed.

(** X1: [cmpSemver] compares like a total preorder: swapping the
    arguments flips the sign, equal and smaller compose, the result is
    never NaN, and it is zero exactly when the three parsed numbers are
    equal and the pre-release fields are the same string. *)
Theorem cmpSemver_total_order :
  order_cmp (fun a b => Js.sign (cmpSemver a b)) /\
  (forall a b, cmpSemver a b <> Js.NaN) /\
  (forall a b,
      Js.sign (cmpSemver a b) = Eq <->
      same_numbers (parse a) (parse b) /\ pre (parse a) = pre (parse b)).
Proof.
  split; [ | split ].
  - apply (order_ext _ _ sign_cmpSemver).
    apply (order_on version_cmp order_version).
  - apply cmpSemver_not_NaN.
  - intros a b. rewrite sign_cmpSemver. unfold version_cmp, same_numbers, component.
    destruct (parse_shape a) as (a0 & a1 & a2 & Ea & Ha0 & Ha1 & Ha2).
    destruct (parse_shape b) as (b0 & b1 & b2 & Eb & Hb0 & Hb1 & Hb2).
    rewrite Ea, Eb. cbn [nth].
    rewrite !lex_Eq, pre_cmp_Eq.
    rewrite (strict_neq_ncmp a0 b0 Ha0 Hb0), (strict_neq_ncmp a1 b1 Ha1 Hb1),
      (strict_neq_ncmp a2 b2 Ha2 Hb2).
    tauto.
Qed.

(** X2: every comparator of the registry orders the records as a total
    preorder: a record ties with itself, of two records one may stand
    before the other, and "may stand before" is transitive. *)
Theorem registry_total_preorder
  (Date_parse : string -> option Z) (k : string) (c : comparator) :
  In (k, c) (sorters Date_parse) ->
  (forall x, Js.sign (c x x) = Eq) /\
  (forall x y, in_order c x y \/ in_order c y x) /\
  (forall x y z, in_order c x y -> in_order c y z -> in_order c x z).
Proof.
  intros H. pose proof (registry_consistent Date_parse k c H) as Hc.
  split; [ | split ].
  - intros x. apply (cmp_refl _ Hc).
  - intros x y. unfold in_order. rewrite (cmp_anti _ Hc x y).
    destruct (Js.sign (c x y)); simpl; [ left | left | right ]; discriminate.
  - intros x y z. apply (cmp_le_trans _ Hc).
Qed.

Lemma registry_total_preorder_witness :
  (forall x, Js.sign (semver_desc Host.Date_parse x x) = Eq) /\
  (forall x y, in_order (semver_desc Host.Date_parse) x y \/
               in_order (semver_desc Host.Date_parse) y x) /\
  (forall x y z, in_order (semver_desc Host.Date_parse) x y ->
                 in_order (semver_desc Host.Date_parse) y z ->
                 in_order (semver_desc Host.Date_parse) x z).
Proof.
  apply (registry_total_preorder Host.Date_parse "semver-desc").
  simpl. tauto.
Defined.

(** X3: sorting an array under a key of the registry never throws and
    returns the stable sorted arrangement: a permutation of the array,
    in the comparator's order, with tied records in their former order;
    it is the only list with these properties. *)
Theorem registry_sort_is_stable_sort
  (Date_parse : string -> option Z) (k : string) (c : comparator)
  (xs : list release) :
  assoc k (sorters Date_parse) = Some c ->
  exists ys,
    Array_sort (sorters_get Date_parse k) xs = Some ys /\
    Permutation ys xs /\
    sorted c ys /\
    (forall x, filter (ties c x) ys = filter (ties c x) xs) /\
    (forall zs, sorted c zs ->
                (forall x, filter (ties c x) zs = filter (ties c x) xs) ->
                zs = ys).
Proof.
  intros H.
  assert (consistent c) as Hc
      by (apply (registry_consistent Date_parse k), assoc_In, H).
  exists (sort_by c xs). split; [ | split; [ | split; [ | split ]]].
  - unfold sorters_get. rewrite H. reflexivity.
  - apply sort_by_perm.
  - apply sort_by_sorted, Hc.
  - intros x. apply sort_by_stable, Hc.
  - intros zs Hs Hf. apply sort_by_unique; assumption.
Qed.

Lemma registry_sort_is_stable_sort_witness :
  exists ys,
    Array_sort (sorters_get Host.Date_parse "date-asc")
      [release_1_5_beta; release_2_0; release_1_4; release_1_0] = Some ys /\
    Permutation ys [release_1_5_beta; release_2_0; release_1_4; release_1_0] /\
    sorted (date_asc Host.Date_parse) ys /\
    (forall x, filter (ties (date_asc Host.Date_parse) x) ys
               = filter (ties (date_asc Host.Date_parse) x)
                   [release_1_5_beta; release_2_0; release_1_4; release_1_0]) /\
    (forall zs, sorted (date_asc Host.Date_parse) zs ->
                (forall x, filter (ties (date_asc Host.Date_parse) x) zs
                           = filter (ties (date_asc Host.Date_parse) x)
                               [release_1_5_beta; release_2_0; release_1_4; release_1_0]) ->
                zs = ys).
Proof.
  apply (registry_sort_is_stable_sort Host.Date_parse "date-asc").
  reflexivity.
Defined.





Lemma StronglySorted_snoc {A : Type} (R : A -> A -> Prop) (l : list A) (a : A) :
  StronglySorted R l -> Forall (fun y => R y a) l -> StronglySorted R (l ++ [a]).
Proof.
  induction 1 as [ | b l Hl IH Hb]; intros Ha; simpl.
  - constructor; constructor.
  - inversion Ha; subst. constructor; [ apply IH; assumption | ].
    apply Forall_app. split; [ assumption | constructor; [ assumption | constructor ] ].
Qed.

Lemma sorted_rev {A : Type} (ca cd : A -> A -> Js.num) (l : list A) :
  (forall x y, Js.sign (cd x y) = Js.sign (ca y x)) ->
  sorted ca l -> sorted cd (rev l).
Proof.
  intros H. unfold sorted. induction 1 as [ | a l Hl IH Ha]; simpl.
  - constructor.
  - apply StronglySorted_snoc; [ exact IH | ].
    apply Forall_rev. eapply Forall_impl; [ | exact Ha ].
    intros y Hy. unfold in_order in *. rewrite H. exact Hy.
Qed.

Lemma rev_all_same {A : Type} (x : A) (l : list A) :
  Forall (eq x) l -> rev l = l.
Proof.
  intros H.
  assert (l = repeat x (List.length l)) as ->.
  { induction H as [ | y l <- _ IH]; simpl; [ reflexivity | ].
    f_equal. exact IH. }
  apply rev_repeat.
Qed.

(** Under a comparator that ties no two different records of the list,
    sorting by the mirrored comparator gives the reversed list. *)
Lemma sort_by_mirror {A : Type} (ca cd : A -> A -> Js.num) (l : list A) :
  consistent ca -> consistent cd ->
  (forall x y, Js.sign (cd x y) = Js.sign (ca y x)) ->
  (forall x y, In x l -> In y l -> ties ca x y = true -> x = y) ->
  sort_by cd l = rev (sort_by ca l).
Proof.
  intros Ha Hd Hm Hno.
  apply (sorted_unique cd Hd).
  - apply sort_by_sorted, Hd.
  - apply (sorted_rev ca cd); [ exact Hm | apply sort_by_sorted, Ha ].
  - intros x Hx.
    assert (In x l) as Hxl.
    { destruct Hx as [Hx | Hx]; [ | apply in_rev in Hx ];
        apply sort_by_In in Hx; exact Hx. }
    assert (forall y, ties cd x y = ties ca x y) as Et.
    { intros y. unfold ties. rewrite Hm, (cmp_anti _ Ha x y).
      destruct (Js.sign (ca x y)); reflexivity. }
    rewrite (sort_by_stable cd Hd), filter_rev.
    rewrite (filter_ext _ _ Et (sort_by ca l)), (filter_ext _ _ Et l).
    rewrite (sort_by_stable ca Ha).
    symmetry. apply (rev_all_same x).
    apply Forall_forall. intros y Hy. apply filter_In in Hy.
    destruct Hy as [Hy Ty]. apply Hno; assumption.
Qed.

(** X5: when the ascending comparator ties no two different records of
    the array, the descending sort is the ascending sort read
    backwards, for build, semver and date alike. *)
Theorem desc_is_reverse_of_asc
  (Date_parse : string -> option Z) (ca cd : comparator) (xs : list release) :
  In (ca, cd) [ (build_asc Date_parse, build_desc Date_parse);
                (semver_asc Date_parse, semver_desc Date_parse);
                (date_asc Date_parse, date_desc Date_parse) ] ->
  (forall x y, In x xs -> In y xs -> ties ca x y = true -> x = y) ->
  sort_by cd xs = rev (sort_by ca xs).
Proof.
  intros H Hno.
  assert (forall k c, assoc k (sorters Date_parse) = Some c -> consistent c) as Hc
      by (intros k c E; apply (registry_consistent Date_parse k), assoc_In, E).
  destruct H as [H | [H | [H | []]]]; injection H as <- <-.
  - apply sort_by_mirror; try assumption.
    + apply (Hc "build-asc"%string). reflexivity.
    + apply (Hc "build-desc"%string). reflexivity.
    + intros x y. rewrite sign_build_desc, sign_build_asc. reflexivity.
  - apply sort_by_mirror; try assumption.
    + apply (Hc "semver-asc"%string). reflexivity.
    + apply (Hc "semver-desc"%string). reflexivity.
    + intros x y. rewrite sign_semver_desc, sign_semver_asc. reflexivity.
  - apply sort_by_mirror; try assumption.
    + apply (Hc "date-asc"%string). reflexivity.
    + apply (Hc "date-desc"%string). reflexivity.
    + intros x y. rewrite sign_date_desc, sign_date_asc. reflexivity.
Qed.

Lemma desc_is_reverse_of_asc_witness :
  sort_by (semver_desc Host.Date_parse)
    [release_1_4; release_2_0; release_1_5_beta; release_1_0]
  = rev (sort_by (semver_asc Host.Date_parse)
           [release_1_4; release_2_0; release_1_5_beta; release_1_0]).
Proof.
  apply (desc_is_reverse_of_asc Host.Date_parse).
  - right. left. reflexivity.
  - intros x y Hx Hy.
    destruct Hx as [<- | [<- | [<- | [<- | []]]]];
      destruct Hy as [<- | [<- | [<- | [<- | []]]]];
      vm_compute; congruence.
Defined.

(* ================================================================== *)
(** * More on the operations *)
(* ================================================================== *)

Section Operations.

Variable Date_parse : string -> option Z.

Lemma Array_sort_fixed (k : string) (l l' : list release) :
  Array_sort (sorters_get Date_parse k) l = Some l' ->
  Array_sort (sorters_get Date_parse k) l' = Some l'.
Proof.
  destruct (sorters_get Date_parse k) as [c | [ | | ] | ] eqn:E;
    cbn [Array_sort]; intros H; try congruence.
  - injection H as <-. f_equal.
    apply sort_by_idem. apply (sorters_get_consistent Date_parse k c E).
  - destruct (List.length l <? 2)%nat eqn:L; [ | discriminate ].
    injection H as <-. rewrite L. reflexivity.
Qed.

(** X6: [setSort] is idempotent: choosing the same name twice, whatever
    the name, leaves state and outcome as after the first time. *)
Theorem setSort_idempotent (value : string) (st : state) :
  setSort Date_parse value (snd (setSort Date_parse value st))
  = setSort Date_parse value st.
Proof.
  unfold setSort.
  set (k := if in_sorters Date_parse value then value else sort st).
  assert ((if in_sorters Date_parse value then value else k) = k) as Ek
      by (unfold k; destruct (in_sorters Date_parse value); reflexivity).
  destruct (Array_sort (sorters_get Date_parse k) (filtered st)) as [l | ] eqn:E;
    cbn [snd sort filtered data]; rewrite Ek.
  - rewrite (Array_sort_fixed k _ l E). reflexivity.
  - rewrite E. reflexivity.
Qed.

(** X7: [applyFilter] starts from the dataset each time: when it
    completes, what an earlier query left in the view has no effect on
    its result. *)
Theorem applyFilter_forgets_earlier_query (value value' : string) (st : state) :
  fst (applyFilter Date_parse value st) = Done ->
  applyFilter Date_parse value (snd (applyFilter Date_parse value' st))
  = applyFilter Date_parse value st.
Proof.
  unfold applyFilter.
  destruct (Array_sort _ (filter (keeps (Js.trim (Js.toLowerCase value'))) (data st)))
    as [l' | ]; cbn [snd data sort]; [ | reflexivity ].
  destruct (Array_sort _ (filter (keeps (Js.trim (Js.toLowerCase value))) (data st)))
    as [l | ]; cbn [fst]; [ reflexivity | discriminate ].
Qed.

End Operations.

Lemma applyFilter_forgets_earlier_query_witness :
  applyFilter Host.Date_parse "BETA"
    (snd (applyFilter Host.Date_parse "2.0"
            {| data := [release_1_4; release_2_0; release_1_5_beta; release_1_0];
               filtered := []; sort := "date-desc" |}))
  = applyFilter Host.Date_parse "BETA"
      {| data := [release_1_4; release_2_0; release_1_5_beta; release_1_0];
         filtered := []; sort := "date-desc" |}.
Proof.
  apply (applyFilter_forgets_earlier_query Host.Date_parse). reflexivity.
Defined.

(* ================================================================== *)
(** * More on the text filter *)
(* ================================================================== *)

Lemma string_app_assoc (a b c : string) : ((a ++ b) ++ c = a ++ (b ++ c))%string.
Proof. induction a as [ | x a IH]; simpl; [ reflexivity | rewrite IH; reflexivity ]. Qed.

Lemma string_app_nil_r (a : string) : (a ++ "")%string = a.
Proof. induction a as [ | x a IH]; simpl; [ reflexivity | rewrite IH; reflexivity ]. Qed.

Lemma includes_trans (h m q : string) :
  Js.includes h m = true -> Js.includes m q = true -> Js.includes h q = true.
Proof.
  rewrite !includes_substring.
  intros (p1 & s1 & ->) (p2 & s2 & ->).
  exists (p1 ++ p2)%string, (s2 ++ s1)%string.
  rewrite !string_app_assoc. reflexivity.
Qed.

Lemma toLowerCase_app (a b : string) :
  Js.toLowerCase (a ++ b) = (Js.toLowerCase a ++ Js.toLowerCase b)%string.
Proof. induction a as [ | x a IH]; simpl; [ reflexivity | rewrite IH; reflexivity ]. Qed.

Lemma includes_toLowerCase (h q : string) :
  Js.includes h q = true ->
  Js.includes (Js.toLowerCase h) (Js.toLowerCase q) = true.
Proof.
  rewrite !includes_substring. intros (p & s & ->).
  exists (Js.toLowerCase p), (Js.toLowerCase s).
  rewrite !toLowerCase_app. reflexivity.
Qed.

Lemma includes_join (l : list string) (s : string) :
  In s l -> Js.includes (Js.join l) s = true.
Proof.
  unfold Js.join. induction l as [ | x l IH]; intros H; [ destruct H | ].
  apply includes_substring.
  destruct H as [-> | H].
  - destruct l as [ | y l]; simpl.
    + exists EmptyString, EmptyString. simpl.
      symmetry. apply string_app_nil_r.
    + exists EmptyString, (" " ++ String.concat " " (y :: l))%string. reflexivity.
  - destruct l as [ | y l]; [ destruct H | ].
    apply IH, includes_substring in H. destruct H as (p & t & E).
    cbn [String.concat]. cbn [String.concat] in E. rewrite E.
    exists (x ++ " " ++ p)%string, t. rewrite !string_app_assoc. reflexivity.
Qed.

Lemma includes_nonempty (h q : string) :
  Js.includes h q = true -> Js.nonempty q = true -> Js.nonempty h = true.
Proof.
  intros H Hq. apply includes_substring in H. destruct H as (p & s & ->).
  destruct p; [ destruct q; [ discriminate | reflexivity ] | reflexivity ].
Qed.

Lemma toLowerCase_nonempty (s : string) :
  Js.nonempty (Js.toLowerCase s) = Js.nonempty s.
Proof. destruct s; reflexivity. Qed.

Lemma field_text_in_hay (it : release) (s : string) :
  In s (field_texts it) -> Js.nonempty s = true ->
  In s (map item_string
          (filter Boolean
             ([ item_of_text (version it); item_of_text (date it);
                item_of_text (channel it); item_of_build (build it) ]
              ++ map IStr (or_empty (changes it))
              ++ map IStr (or_empty (tags it))))).
Proof.
  intros Hin Hs.
  change s with (item_string (IStr s)). apply in_map.
  apply filter_In. split; [ | exact Hs ].
  unfold field_texts in Hin.
  apply in_app_or in Hin. apply in_or_app.
  destruct Hin as [Hin | Hin].
  - left. simpl in Hin. simpl.
    destruct Hin as [E | [E | [E | [E | []]]]]; subst s.
    + destruct (version it) as [[ | x] | ]; try discriminate. simpl. tauto.
    + destruct (date it) as [[ | x] | ]; try discriminate. simpl. tauto.
    + destruct (channel it) as [[ | x] | ]; try discriminate. simpl. tauto.
    + destruct (build it) as [[ | z | x] | ]; try discriminate. simpl. tauto.
  - right. apply in_app_or in Hin. apply in_or_app.
    destruct Hin as [Hin | Hin]; [ left | right ]; apply in_map; exact Hin.
Qed.

(** X8: the filter ignores letter case and surrounding white space: a
    record is kept as soon as the typed text, trimmed and in lower
    case, occurs in the lower-case text of its version, date, channel,
    text build, one of its changes or one of its tags. *)
Theorem keeps_query_found_in_field (it : release) (s value : string) :
  In s (field_texts it) ->
  Js.includes (Js.toLowerCase s) (Js.trim (Js.toLowerCase value)) = true ->
  keeps (Js.trim (Js.toLowerCase value)) it = true.
Proof.
  intros Hin H1. unfold keeps.
  destruct (Js.nonempty (Js.trim (Js.toLowerCase value))) eqn:Hq; [ | reflexivity ].
  cbn [negb].
  assert (Js.nonempty s = true) as Hs.
  { rewrite <- toLowerCase_nonempty. eapply includes_nonempty; eassumption. }
  unfold hay. eapply includes_trans; [ | exact H1 ].
  apply includes_toLowerCase, includes_join, field_text_in_hay; assumption.
Qed.

Lemma keeps_query_found_in_field_witness :
  keeps (Js.trim (Js.toLowerCase "  BETA ")) release_1_5_beta = true.
Proof.
  apply (keeps_query_found_in_field release_1_5_beta "Beta fix" "  BETA ").
  - vm_compute. tauto.
  - reflexivity.
Defined.

(** X9: a longer query never brings records back: every record kept
    under a query is kept under each query it contains. *)
Theorem keeps_narrows (q q' : string) (l : list release) :
  Js.includes q' q = true ->
  incl (filter (keeps q') l) (filter (keeps q) l).
Proof.
  intros Hq it Hit. apply filter_In in Hit. destruct Hit as [Hin Hk].
  apply filter_In. split; [ exact Hin | ].
  unfold keeps in *.
  destruct (Js.nonempty q) eqn:Nq; [ | reflexivity ].
  rewrite (includes_nonempty q' q Hq Nq) in Hk. cbn [negb] in *.
  eapply includes_trans; eassumption.
Qed.

Lemma keeps_narrows_witness :
  incl (filter (keeps "beta fix")
          [release_1_4; release_2_0; release_1_5_beta; release_1_0])
       (filter (keeps "fix")
          [release_1_4; release_2_0; release_1_5_beta; release_1_0]).
Proof. apply keeps_narrows. reflexivity. Defined.

Lemma lower_char_space (c : ascii) : Js.is_space c = true -> Js.lower_char c = c.
Proof.
  destruct c as [[ | ] [ | ] [ | ] [ | ] [ | ] [ | ] [ | ] [ | ]];
    intros H; try discriminate H; reflexivity.
Qed.

Lemma blank_query (value : string) :
  Js.all_chars Js.is_space value = true ->
  Js.trim (Js.toLowerCase value) = EmptyString.
Proof.
  unfold Js.trim. intros H.
  assert (Js.trimStart (Js.toLowerCase value) = EmptyString) as ->; [ | reflexivity ].
  induction value as [ | c v IH]; [ reflexivity | ].
  simpl in H. apply andb_true_iff in H. destruct H as [Hc Hv].
  simpl. rewrite (lower_char_space c Hc), Hc. apply IH, Hv.
Qed.

Section OperationsOnRegistryKeys.

Variable Date_parse : string -> option Z.

(** X10: under a key of the registry [applyFilter] completes, leaves
    dataset and key alone, and shows exactly the records of the dataset
    the query keeps, each as often as the dataset has it, in the
    comparator's order.  A query of white space only keeps them all. *)
Theorem applyFilter_view (value : string) (st : state) (c : comparator) :
  assoc (sort st) (sorters Date_parse) = Some c ->
  exists view,
    applyFilter Date_parse value st
    = (Done, {| data := data st; filtered := view; sort := sort st |}) /\
    Permutation view (filter (keeps (Js.trim (Js.toLowerCase value))) (data st)) /\
    sorted c view /\
    (forall x, In x view <->
               In x (data st) /\ keeps (Js.trim (Js.toLowerCase value)) x = true) /\
    (Js.all_chars Js.is_space value = true -> Permutation view (data st)).
Proof.
  intros H.
  assert (consistent c) as Hc
      by (apply (registry_consistent Date_parse (sort st)), assoc_In, H).
  exists (sort_by c (filter (keeps (Js.trim (Js.toLowerCase value))) (data st))).
  split; [ | split; [ | split; [ | split ]]].
  - unfold applyFilter, sorters_get. rewrite H. reflexivity.
  - apply sort_by_perm.
  - apply sort_by_sorted, Hc.
  - intros x. rewrite sort_by_In. apply filter_In.
  - intros Hb. rewrite (blank_query value Hb).
    eapply perm_trans; [ apply sort_by_perm | ].
    unfold keeps. cbn. rewrite filter_true. apply Permutation_refl.
Qed.

End OperationsOnRegistryKeys.

Lemma applyFilter_view_witness :
  exists view,
    applyFilter Host.Date_parse "  "
      {| data := [release_1_4; release_2_0; release_1_5_beta];
         filtered := []; sort := "semver-asc" |}
    = (Done, {| data := [release_1_4; release_2_0; release_1_5_beta];
                filtered := view; sort := "semver-asc" |}) /\
    Permutation view
      (filter (keeps (Js.trim (Js.toLowerCase "  ")))
         [release_1_4; release_2_0; release_1_5_beta]) /\
    sorted (semver_asc Host.Date_parse) view /\
    (forall x, In x view <->
               In x [release_1_4; release_2_0; release_1_5_beta] /\
               keeps (Js.trim (Js.toLowerCase "  ")) x = true) /\
    (Js.all_chars Js.is_space "  " = true ->
     Permutation view [release_1_4; release_2_0; release_1_5_beta]).
Proof.
  apply (applyFilter_view Host.Date_parse "  "
           {| data := [release_1_4; release_2_0; release_1_5_beta];
              filtered := []; sort := "semver-asc" |}
           (semver_asc Host.Date_parse)).
  reflexivity.
Defined.

(* ================================================================== *)
(** * The session, from page load on *)
(* ================================================================== *)

Section LoadedSession.

Variable Date_parse : string -> option Z.

Lemma Array_sort_perm (f : property) (l l' : list release) :
  Array_sort f l = Some l' -> Permutation l' l.
Proof.
  destruct f as [c | [ | | ] | ]; cbn [Array_sort]; intros H; try discriminate.
  - injection H as <-. apply sort_by_perm.
  - injection H as <-. apply Permutation_refl.
  - destruct (List.length l <? 2)%nat; [ | discriminate ].
    injection H as <-. apply Permutation_refl.
  - injection H as <-. apply Permutation_refl.
Qed.

Lemma Array_sort_sorted (k : string) (c : comparator) (l l' : list release) :
  sorters_get Date_parse k = Own c ->
  Array_sort (sorters_get Date_parse k) l = Some l' -> sorted c l'.
Proof.
  intros E. rewrite E. cbn [Array_sort]. intros [= <-].
  apply sort_by_sorted. apply (sorters_get_consistent Date_parse k c E).
Qed.

Lemma Array_sort_None_not_own (k : string) (l : list release) (c : comparator) :
  Array_sort (sorters_get Date_parse k) l = None ->
  sorters_get Date_parse k <> Own c.
Proof. intros H E. rewrite E in H. discriminate. Qed.

Lemma in_sorters_new_key (value k : string) :
  in_sorters Date_parse k = true ->
  in_sorters Date_parse (if in_sorters Date_parse value then value else k) = true.
Proof. intros Hk. destruct (in_sorters Date_parse value) eqn:E; assumption. Qed.

(** Before the dataset arrives there is nothing to show. *)
Lemma waiting_empty (st : state) :
  waiting Date_parse st ->
  data st = [] /\ filtered st = [] /\ in_sorters Date_parse (sort st) = true.
Proof.
  induction 1 as [ | value st _ (Hd & Hf & Hk) | value st _ (Hd & Hf & Hk)].
  - repeat split.
  - unfold applyFilter. rewrite Hd. cbn [filter].
    destruct (Array_sort _ []) as [l | ] eqn:E; cbn [snd data filtered sort].
    + apply Array_sort_perm, Permutation_sym, Permutation_nil in E. subst l. repeat split; assumption.
    + repeat split; assumption.
  - unfold setSort. rewrite Hf.
    destruct (Array_sort _ []) as [l | ] eqn:E; cbn [snd data filtered sort].
    + apply Array_sort_perm, Permutation_sym, Permutation_nil in E. subst l.
      repeat split; try assumption. apply in_sorters_new_key, Hk.
    + repeat split; try assumption. apply in_sorters_new_key, Hk.
Qed.

(** X11: once [load] has run, through every later use of the filter box
    and the sort menu: the dataset stays the loaded one; the view holds
    records of the dataset only, namely those some test selects, each
    as often as the dataset has it; the sort key is a name
    [sorters] answers to; and under a key of the registry the view is
    in the comparator's order. *)
Theorem loaded_invariant (arr : list release) (st : state) :
  loaded Date_parse arr st ->
  data st = arr /\
  (exists p, Permutation (filtered st) (filter p arr)) /\
  incl (filtered st) arr /\
  in_sorters Date_parse (sort st) = true /\
  (forall c, sorters_get Date_parse (sort st) = Own c -> sorted c (filtered st)).
Proof.
  intros H.
  assert (data st = arr /\
          (exists p, Permutation (filtered st) (filter p arr)) /\
          in_sorters Date_parse (sort st) = true /\
          (forall c, sorters_get Date_parse (sort st) = Own c ->
                     sorted c (filtered st))) as (Hd & Hp & Hk & Hs).
  { induction H as [fromUrl st Hw
                   | value st _ (Hd & [p Hp] & Hk & Hs)
                   | value st _ (Hd & [p Hp] & Hk & Hs)].
    - destruct (waiting_empty st Hw) as (_ & Hf & _).
      assert (in_sorters Date_parse
                (if truthy_key Date_parse fromUrl then url_key fromUrl
                 else "build-asc"%string) = true) as Hk.
      { unfold truthy_key. destruct fromUrl as [k | ]; [ | reflexivity ].
        destruct (Js.nonempty k); [ | reflexivity ]. cbn [andb url_key].
        destruct (in_sorters Date_parse k) eqn:E; [ exact E | reflexivity ]. }
      unfold load.
      destruct (Array_sort _ arr) as [l | ] eqn:E; cbn [snd data filtered sort].
      + split; [ reflexivity | ]. split; [ | split; [ exact Hk | ] ].
        * exists (fun _ => true). rewrite filter_true.
          apply (Array_sort_perm _ _ _ E).
        * intros c Ec. apply (Array_sort_sorted _ c _ _ Ec E).
      + split; [ reflexivity | ]. split; [ | split; [ exact Hk | ] ].
        * exists (fun _ => false). rewrite Hf.
          clear. induction arr; simpl; [ apply perm_nil | assumption ].
        * intros c Ec. elim (Array_sort_None_not_own _ _ c E Ec).
    - unfold applyFilter.
      destruct (Array_sort _ (filter _ (data st))) as [l | ] eqn:E;
        cbn [snd data filtered sort].
      + split; [ exact Hd | ]. split; [ | split; [ exact Hk | ] ].
        * exists (keeps (Js.trim (Js.toLowerCase value))). rewrite <- Hd.
          apply (Array_sort_perm _ _ _ E).
        * intros c Ec. apply (Array_sort_sorted _ c _ _ Ec E).
      + repeat split; try assumption. exists p. exact Hp.
    - unfold setSort.
      destruct (Array_sort _ (filtered st)) as [l | ] eqn:E;
        cbn [snd data filtered sort].
      + split; [ exact Hd | ].
        split; [ | split; [ apply in_sorters_new_key, Hk | ] ].
        * exists p. eapply perm_trans; [ apply (Array_sort_perm _ _ _ E) | exact Hp ].
        * intros c Ec. apply (Array_sort_sorted _ c _ _ Ec E).
      + split; [ exact Hd | ].
        split; [ | split; [ apply in_sorters_new_key, Hk | ] ].
        * exists p. exact Hp.
        * intros c Ec. elim (Array_sort_None_not_own _ _ c E Ec). }
  repeat split; try assumption.
  destruct Hp as [p Hp]. intros x Hx.
  apply (Permutation_in _ Hp) in Hx. apply filter_In in Hx. tauto.
Qed.

End LoadedSession.

Lemma loaded_invariant_witness :
  data (snd (setSort Host.Date_parse "date-desc"
          (snd (applyFilter Host.Date_parse "beta"
             (snd (load Host.Date_parse
                     [release_1_4; release_2_0; release_1_5_beta] None
                     (snd (setSort Host.Date_parse "semver-asc" initial))))))))
  = [release_1_4; release_2_0; release_1_5_beta].
Proof.
  apply (loaded_invariant Host.Date_parse).
  apply loaded_sort, loaded_filter, loaded_load, wait_sort, wait_initial.
Defined.

(* ================================================================== *)
(** * More on the default sort *)
(* ================================================================== *)

Lemma existsb_perm {A : Type} (p : A -> bool) (l l' : list A) :
  Permutation l l' -> existsb p l = existsb p l'.
Proof.
  intros H.
  destruct (existsb p l) eqn:E, (existsb p l') eqn:E'; try reflexivity.
  - apply existsb_exists in E. destruct E as (x & Hx & Px).
    rewrite existsb_false_iff in E'.
    rewrite (E' x (Permutation_in _ H Hx)) in Px. discriminate.
  - apply existsb_exists in E'. destruct E' as (x & Hx & Px).
    rewrite existsb_false_iff in E.
    rewrite (E x (Permutation_in _ (Permutation_sym H) Hx)) in Px. discriminate.
Qed.

Lemma forallb_perm {A : Type} (p : A -> bool) (l l' : list A) :
  Permutation l l' -> forallb p l = forallb p l'.
Proof.
  intros H.
  destruct (forallb p l) eqn:E, (forallb p l') eqn:E'; try reflexivity.
  - rewrite forallb_forall in E.
    assert (forallb p l' = true) as E''.
    { apply forallb_forall. intros x Hx. apply E.
      apply (Permutation_in _ (Permutation_sym H) Hx). }
    congruence.
  - rewrite forallb_forall in E'.
    assert (forallb p l = true) as E''.
    { apply forallb_forall. intros x Hx. apply E'.
      apply (Permutation_in _ H Hx). }
    congruence.
Qed.

(** X12: what [pickDefaultSort] answers is always a key of the
    registry, one of the three descending ones, and it does not depend
    on the order of the records in the dataset. *)
Theorem pickDefaultSort_sound (Date_parse : string -> option Z) :
  (forall arr,
      In (pickDefaultSort arr) ["build-desc"; "semver-desc"; "date-desc"]%string /\
      exists c, assoc (pickDefaultSort arr) (sorters Date_parse) = Some c) /\
  (forall arr arr',
      Permutation arr arr' -> pickDefaultSort arr = pickDefaultSort arr').
Proof.
  split.
  - intros arr.
    destruct (pickDefaultSort_range arr) as [-> | [-> | ->]];
      (split; [ simpl; tauto | eexists; reflexivity ]).
  - intros arr arr' H. unfold pickDefaultSort.
    rewrite (existsb_perm _ arr arr' H), (forallb_perm _ arr arr' H).
    reflexivity.
Qed.

(* ================================================================== *)
(** * Escaping *)
(* ================================================================== *)

Lemma all_chars_app (p : ascii -> bool) (a b : string) :
  Js.all_chars p (a ++ b) = Js.all_chars p a && Js.all_chars p b.
Proof.
  induction a as [ | c a IH]; simpl; [ reflexivity | ].
  rewrite IH, andb_assoc. reflexivity.
Qed.

Lemma entity_cases (c : ascii) :
  (entity c = Some "&amp;"%string /\ c = "&"%char) \/
  (entity c = Some "&lt;"%string /\ c = "<"%char) \/
  (entity c = Some "&gt;"%string /\ c = ">"%char) \/
  (entity c = Some "&quot;"%string /\ c = "034"%char) \/
  (entity c = Some "&#39;"%string /\ c = "'"%char) \/
  (entity c = None /\ is_markup c = false /\ c <> "&"%char).
Proof.
  unfold entity, is_markup.
  destruct (Ascii.eqb_spec c "&"); [ subst; tauto | ].
  destruct (Ascii.eqb_spec c "<"); [ subst; tauto | ].
  destruct (Ascii.eqb_spec c ">"); [ subst; tauto | ].
  destruct (Ascii.eqb_spec c "034"); [ subst; tauto | ].
  destruct (Ascii.eqb_spec c "'"); [ subst; tauto | ].
  repeat right. repeat split; assumption.
Qed.

(** X13: escaped text carries no markup: the output of [escapeHtml] has
    no angle bracket and no quote of either kind, and a text without
    these and without ampersand comes out as it went in. *)
Theorem escapeHtml_no_markup (str : string) :
  Js.all_chars (fun c => negb (is_markup c)) (escapeHtml str) = true /\
  (Js.all_chars (fun c => negb (is_markup c || Ascii.eqb c "&")) str = true ->
   escapeHtml str = str).
Proof.
  split.
  - induction str as [ | c str IH]; [ reflexivity | ].
    cbn [escapeHtml].
    destruct (entity_cases c)
      as [[-> _] | [[-> _] | [[-> _] | [[-> _] | [[-> _] | (-> & Hm & _)]]]]];
      try (rewrite all_chars_app, IH; reflexivity).
    cbn [Js.all_chars]. rewrite Hm, IH. reflexivity.
  - induction str as [ | c str IH]; [ reflexivity | ].
    cbn [Js.all_chars escapeHtml]. rewrite andb_true_iff, negb_true_iff, orb_false_iff.
    intros [[Hm Ha] Hs].
    destruct (entity_cases c)
      as [[_ ->] | [[_ ->] | [[_ ->] | [[_ ->] | [[_ ->] | (-> & _ & _)]]]]];
      try discriminate.
    rewrite (IH Hs). reflexivity.
Qed.

Lemma escapeHtml_no_markup_witness :
  escapeHtml "Fix crash on load, v1.4.0 (build 12)"
  = "Fix crash on load, v1.4.0 (build 12)"%string.
Proof. apply escapeHtml_no_markup. reflexivity. Defined.

(** X14: [escapeHtml] loses nothing: two texts with the same escaped
    form are the same text. *)
Theorem escapeHtml_injective (a : string) : forall b : string,
  escapeHtml a = escapeHtml b -> a = b.
Proof.
  induction a as [ | c a IH]; intros [ | d b]; cbn [escapeHtml].
  - reflexivity.
  - destruct (entity_cases d)
      as [[-> _] | [[-> _] | [[-> _] | [[-> _] | [[-> _] | (-> & _ & _)]]]]];
      discriminate.
  - destruct (entity_cases c)
      as [[-> _] | [[-> _] | [[-> _] | [[-> _] | [[-> _] | (-> & _ & _)]]]]];
      discriminate.
  - destruct (entity_cases c)
      as [[-> ->] | [[-> ->] | [[-> ->] | [[-> ->] | [[-> ->] | (-> & _ & Hc)]]]]];
      destruct (entity_cases d)
        as [[-> ->] | [[-> ->] | [[-> ->] | [[-> ->] | [[-> ->] | (-> & _ & Hd)]]]]];
      simpl; intros E; try discriminate;
      try (injection E as E; f_equal; apply IH; exact E);
      try (injection E as E1 E2; congruence).
    injection E as -> E. f_equal. apply IH, E.
Qed.

Lemma escapeHtml_injective_witness :
  "Q&A <draft>"%string = String "Q" (String "&" "A <draft>").
Proof. apply escapeHtml_injective. reflexivity. Defined.

(* ================================================================== *)
(** * Numbers written as text *)
(* ================================================================== *)

Lemma digit_char (m : Z) :
  0 <= m < 10 ->
  Js.is_digit (ascii_of_N (Z.to_N (48 + m))) = true /\
  Js.digit_val (ascii_of_N (Z.to_N (48 + m))) = m.
Proof.
  intros H.
  assert (m = 0 \/ m = 1 \/ m = 2 \/ m = 3 \/ m = 4 \/
          m = 5 \/ m = 6 \/ m = 7 \/ m = 8 \/ m = 9) as C by lia.
  repeat (destruct C as [-> | C]; [ split; reflexivity | ]).
  subst. split; reflexivity.
Qed.

Lemma digits_acc_app (base : Z) (val : ascii -> Z) (d e : string) : forall acc,
  Js.digits_acc base val acc (d ++ e)
  = Js.digits_acc base val (Js.digits_acc base val acc d) e.
Proof. induction d as [ | c d IH]; intros acc; simpl; [ reflexivity | apply IH ]. Qed.

Lemma pos_digits_step (f : nat) (n : Z) (acc : string) :
  Js.pos_digits (S f) n acc
  = if n <? 10 then String (ascii_of_N (Z.to_N (48 + n mod 10))) acc
    else Js.pos_digits f (n / 10) (String (ascii_of_N (Z.to_N (48 + n mod 10))) acc).
Proof. reflexivity. Qed.

(** The digits [pos_digits] writes in front of [acc] read back as the
    number, when the fuel covers it. *)
Lemma pos_digits_spec (f : nat) : forall (n : Z) (acc : string),
  0 <= n < 10 ^ Z.of_nat (S f) ->
  exists d,
    Js.pos_digits (S f) n acc = (d ++ acc)%string /\
    Js.nonempty d = true /\
    Js.all_chars Js.is_digit d = true /\
    Js.decimal d = n.
Proof.
  induction f as [ | f IH]; intros n acc Hn; rewrite pos_digits_step.
  - change (10 ^ Z.of_nat 1) with 10 in Hn.
    assert ((n <? 10) = true) as -> by (apply Z.ltb_lt; lia).
    rewrite (Z.mod_small n 10) by lia.
    destruct (digit_char n) as [Hd Hv]; [ lia | ].
    exists (String (ascii_of_N (Z.to_N (48 + n))) EmptyString).
    repeat split.
    + cbn [Js.all_chars]. rewrite Hd. reflexivity.
    + unfold Js.decimal. cbn [Js.digits_acc]. rewrite Hv. reflexivity.
  - destruct (n <? 10) eqn:E.
    + apply Z.ltb_lt in E. rewrite (Z.mod_small n 10) by lia.
      destruct (digit_char n) as [Hd Hv]; [ lia | ].
      exists (String (ascii_of_N (Z.to_N (48 + n))) EmptyString).
      repeat split.
      * cbn [Js.all_chars]. rewrite Hd. reflexivity.
      * unfold Js.decimal. cbn [Js.digits_acc]. rewrite Hv. reflexivity.
    + apply Z.ltb_ge in E.
      assert (0 <= n / 10 < 10 ^ Z.of_nat (S f)) as Hq.
      { rewrite (Nat2Z.inj_succ (S f)), Z.pow_succ_r in Hn by lia.
        split; [ apply Z.div_pos; lia | apply Z.div_lt_upper_bound; lia ]. }
      destruct (IH (n / 10)
                  (String (ascii_of_N (Z.to_N (48 + n mod 10))) acc) Hq)
        as (d & Ed & Nd & Ad & Vd).
      destruct (digit_char (n mod 10)) as [Hd Hv];
        [ apply Z.mod_pos_bound; lia | ].
      exists (d ++ String (ascii_of_N (Z.to_N (48 + n mod 10))) EmptyString)%string.
      repeat split.
      * rewrite Ed, string_app_assoc. reflexivity.
      * destruct d; [ discriminate | reflexivity ].
      * rewrite all_chars_app, Ad. cbn [Js.all_chars]. rewrite Hd. reflexivity.
      * unfold Js.decimal in *. rewrite digits_acc_app, Vd.
        cbn [Js.digits_acc]. rewrite Hv.
        rewrite (Z.div_mod n 10) at 3 by lia. ring.
Qed.

Lemma fuel_covers (n : Z) : 0 <= n -> n < 10 ^ Z.of_nat (S (Z.to_nat (Z.log2 n))).
Proof.
  intros Hn. rewrite Nat2Z.inj_succ, Z2Nat.id by apply Z.log2_nonneg.
  destruct (Z.eq_dec n 0) as [-> | Hz]; [ reflexivity | ].
  assert (n < 2 ^ Z.succ (Z.log2 n)) as H1 by (apply Z.log2_spec; lia).
  assert (2 ^ Z.succ (Z.log2 n) <= 10 ^ Z.succ (Z.log2 n)) as H2.
  { apply Z.pow_le_mono_l. lia. }
  lia.
Qed.

(** [String(z)] is an optional minus sign and the decimal digits of the
    magnitude. *)
Lemma string_of_Z_spec (z : Z) :
  exists d,
    Js.string_of_Z z = (if z <? 0 then String "-" d else d) /\
    Js.nonempty d = true /\
    Js.all_chars Js.is_digit d = true /\
    Js.decimal d = Z.abs z.
Proof.
  unfold Js.string_of_Z.
  destruct (pos_digits_spec (Z.to_nat (Z.log2 (Z.abs z))) (Z.abs z) EmptyString)
    as (d & Ed & Nd & Ad & Vd).
  { split; [ apply Z.abs_nonneg | apply fuel_covers, Z.abs_nonneg ]. }
  exists d. rewrite Ed, string_app_nil_r. repeat split; assumption.
Qed.

Lemma digit_not_space (c : ascii) : Js.is_digit c = true -> Js.is_space c = false.
Proof.
  destruct c as [[ | ] [ | ] [ | ] [ | ] [ | ] [ | ] [ | ] [ | ]];
    intros H; try discriminate H; reflexivity.
Qed.

Lemma trimEnd_id (s : string) :
  Js.all_chars (fun c => negb (Js.is_space c)) s = true -> Js.trimEnd s = s.
Proof.
  induction s as [ | c s IH]; [ reflexivity | ].
  cbn [Js.all_chars Js.trimEnd]. rewrite andb_true_iff, negb_true_iff.
  intros [Hc Hs]. rewrite (IH Hs), Hc. destruct s; reflexivity.
Qed.

Lemma trim_id (s : string) :
  Js.all_chars (fun c => negb (Js.is_space c)) s = true -> Js.trim s = s.
Proof.
  intros H. unfold Js.trim.
  assert (Js.trimStart s = s) as ->; [ | apply trimEnd_id, H ].
  destruct s as [ | c s]; [ reflexivity | ].
  cbn [Js.all_chars] in H. apply andb_true_iff in H. destruct H as [Hc _].
  apply negb_true_iff in Hc. cbn [Js.trimStart]. rewrite Hc. reflexivity.
Qed.

Lemma all_chars_impl (p q : ascii -> bool) (s : string) :
  (forall c, p c = true -> q c = true) ->
  Js.all_chars p s = true -> Js.all_chars q s = true.
Proof.
  intros H. induction s as [ | c s IH]; [ reflexivity | ].
  cbn [Js.all_chars]. rewrite !andb_true_iff. intros [Hc Hs].
  split; [ apply H, Hc | apply IH, Hs ].
Qed.

Lemma take_drop_all (p : ascii -> bool) (s : string) :
  Js.all_chars p s = true ->
  Js.take_while p s = s /\ Js.drop_while p s = EmptyString.
Proof.
  induction s as [ | c s IH]; [ split; reflexivity | ].
  cbn [Js.all_chars Js.take_while Js.drop_while]. rewrite andb_true_iff.
  intros [-> Hs]. destruct (IH Hs) as [-> ->]. split; reflexivity.
Qed.

Lemma strip_sign_digit (c : ascii) (s : string) :
  Js.is_digit c = true -> Js.strip_sign (String c s) = (false, String c s).
Proof.
  destruct c as [[ | ] [ | ] [ | ] [ | ] [ | ] [ | ] [ | ] [ | ]];
    intros H; try discriminate H; reflexivity.
Qed.

(** The literal of a signed string of digits is the rounded value. *)
Lemma decimal_literal_digits (neg : bool) (d : string) :
  Js.nonempty d = true -> Js.all_chars Js.is_digit d = true ->
  Js.decimal_literal (if neg then String "-" d else d)
  = Js.round_ratio neg (Js.decimal d) 1.
Proof.
  intros Nd Ad.
  assert (Js.strip_sign (if neg then String "-" d else d) = (neg, d)) as Es.
  { destruct neg; [ reflexivity | ].
    destruct d as [ | c d]; [ discriminate | ].
    apply strip_sign_digit. cbn [Js.all_chars] in Ad.
    apply andb_true_iff in Ad. tauto. }
  assert (String.eqb d "Infinity" = false) as Ei.
  { destruct d as [ | c d]; [ reflexivity | ].
    cbn [Js.all_chars] in Ad. apply andb_true_iff in Ad. destruct Ad as [Hc _].
    apply String.eqb_neq. intros [= -> _]. discriminate Hc. }
  destruct (take_drop_all Js.is_digit d Ad) as [Et Ed].
  unfold Js.decimal_literal. rewrite Es, Ei, Et, Ed, Nd.
  cbn [orb Js.exponent String.length Z.of_nat].
  rewrite string_app_nil_r.
  change (0 <=? 0 - 0) with true. cbv iota.
  change (10 ^ (0 - 0)) with 1. rewrite Z.mul_1_r. reflexivity.
Qed.

Lemma Number_of_digits (neg : bool) (d : string) :
  Js.nonempty d = true -> Js.all_chars Js.is_digit d = true ->
  Js.Number_of_string (if neg then String "-" d else d)
  = Js.round_ratio neg (Js.decimal d) 1.
Proof.
  intros Nd Ad. rewrite <- (decimal_literal_digits neg d Nd Ad).
  unfold Js.Number_of_string.
  assert (Js.all_chars (fun c => negb (Js.is_space c)) d = true) as Sd.
  { apply (all_chars_impl Js.is_digit); [ | exact Ad ].
    intros c Hc. rewrite (digit_not_space c Hc). reflexivity. }
  rewrite trim_id by (destruct neg; [ cbn [Js.all_chars]; rewrite Sd | ]; auto).
  destruct neg; [ reflexivity | ].
  destruct d as [ | c [ | x ds]]; [ discriminate | | ].
  - destruct c as [[ | ] [ | ] [ | ] [ | ] [ | ] [ | ] [ | ] [ | ]]; reflexivity.
  - assert (Js.is_digit x = true) as Hx.
    { cbn [Js.all_chars] in Ad. rewrite !andb_true_iff in Ad. tauto. }
    assert (forall y, Js.is_digit y = false -> Ascii.eqb x y = false) as Hne.
    { intros y Hy. apply Ascii.eqb_neq. intros ->. congruence. }
    destruct c as [[ | ] [ | ] [ | ] [ | ] [ | ] [ | ] [ | ] [ | ]];
      try reflexivity.
    cbv iota beta.
    rewrite !Hne by reflexivity. reflexivity.
Qed.

Lemma div_half_even_1 (a : Z) : Js.div_half_even a 1 = a.
Proof.
  unfold Js.div_half_even. rewrite Z.mod_1_r, Z.div_1_r. reflexivity.
Qed.

(** Integers of magnitude below [2^53] are doubles: rounding keeps
    them. *)
Lemma round_ratio_small (neg : bool) (n : Z) :
  0 < n < 2 ^ 53 ->
  Js.round_ratio neg n 1
  = Js.Fin (if neg then (- inject_Z n)%Q else inject_Z n).
Proof.
  intros Hn. unfold Js.round_ratio.
  assert ((n =? 0) = false) as -> by (apply Z.eqb_neq; lia).
  change (Z.log2 1) with 0. rewrite Z.sub_0_r.
  assert (0 <= Z.log2 n) as HL0 by apply Z.log2_nonneg.
  assert (Z.log2 n < 53) as HL1 by (apply Z.log2_lt_pow2; lia).
  assert (2 ^ Z.log2 n <= n) as HL2 by (apply Z.log2_spec; lia).
  assert (Js.ge_pow2 n 1 (Z.log2 n) = true) as ->.
  { unfold Js.ge_pow2.
    assert ((0 <=? Z.log2 n) = true) as -> by (apply Z.leb_le; lia).
    apply Z.leb_le. lia. }
  rewrite (Z.max_l (Z.log2 n - 52) (- 1074)) by lia.
  destruct (Z.eq_dec (Z.log2 n) 52) as [E | E].
  - rewrite E. change (52 - 52) with 0. change (0 <=? 0) with true.
    cbv iota. change (1 * 2 ^ 0) with 1. change (2 ^ 0) with 1.
    rewrite div_half_even_1, Z.mul_1_r.
    assert ((2 ^ 1024 <=? n) = false) as ->.
    { apply Z.leb_gt. eapply Z.lt_trans; [ apply Hn | reflexivity ]. }
    reflexivity.
  - assert ((0 <=? Z.log2 n - 52) = false) as -> by (apply Z.leb_gt; lia).
    cbv iota. cbn [andb].
    rewrite div_half_even_1.
    assert (0 < 2 ^ (- (Z.log2 n - 52))) as Hp by (apply Z.pow_pos_nonneg; lia).
    assert (Qred (n * 2 ^ (- (Z.log2 n - 52))
                  # Z.to_pos (2 ^ (- (Z.log2 n - 52)))) = inject_Z n) as ->;
      [ | reflexivity ].
    rewrite <- (Qcanon.Qred_identity (inject_Z n)) by (simpl; apply Z.gcd_1_r).
    apply Qred_complete. unfold Qeq, inject_Z. cbn [Qnum Qden].
    rewrite Z2Pos.id by exact Hp. ring.
Qed.

(** X15: an integer build written as decimal text is read back as the
    number: below [2^53] in magnitude, [Number(String(z))] is [z], so a
    record whose build is the text [12] gets the sort key of a record
    whose build is the number 12, and the two tie on the build. *)
Theorem toBuild_of_decimal_text (z : Z) :
  Z.abs z < 2 ^ 53 ->
  Js.Number_of_string (Js.string_of_Z z) = Js.of_Z z /\
  toBuild (Some (BStr (Js.string_of_Z z))) = toBuild (Some (BNum z)) /\
  (forall a b : release,
      build a = Some (BStr (Js.string_of_Z z)) -> build b = Some (BNum z) ->
      by_build a b = Eq).
Proof.
  intros Hz.
  assert (Js.Number_of_string (Js.string_of_Z z) = Js.of_Z z) as E.
  { destruct (string_of_Z_spec z) as (d & -> & Nd & Ad & Vd).
    rewrite (Number_of_digits (z <? 0) d Nd Ad), Vd.
    destruct (Z.eq_dec z 0) as [-> | Hz0]; [ reflexivity | ].
    rewrite round_ratio_small by lia.
    unfold Js.of_Z. destruct (z <? 0) eqn:S.
    - apply Z.ltb_lt in S. rewrite Z.abs_neq by lia.
      unfold Qopp, inject_Z. cbn [Qnum Qden]. rewrite Z.opp_involutive. reflexivity.
    - apply Z.ltb_ge in S. rewrite Z.abs_eq by lia. reflexivity. }
  assert (toBuild (Some (BStr (Js.string_of_Z z))) = toBuild (Some (BNum z))) as E'.
  { unfold toBuild, Number. rewrite E. reflexivity. }
  repeat split; try assumption.
  intros a b Ha Hb. unfold by_build. rewrite Ha, Hb, E'.
  apply (cmp_refl _ order_ncmp).
Qed.

Lemma toBuild_of_decimal_text_witness :
  toBuild (Some (BStr (Js.string_of_Z (-45)))) = toBuild (Some (BNum (-45))).
Proof. apply (toBuild_of_decimal_text (-45)). reflexivity. Defined.

(* ================================================================== *)
(** * Rendering *)
(* ================================================================== *)

Lemma markup_of_app (a b : string) :
  markup_of (a ++ b) = (markup_of a ++ markup_of b)%string.
Proof.
  induction a as [ | c a IH]; simpl; [ reflexivity | ].
  destruct (is_structural c); simpl; rewrite IH; reflexivity.
Qed.

Lemma markup_of_escapeHtml (s : string) : markup_of (escapeHtml s) = EmptyString.
Proof.
  induction s as [ | c s IH]; [ reflexivity | ].
  cbn [escapeHtml].
  destruct (entity_cases c)
    as [[-> _] | [[-> _] | [[-> _] | [[-> _] | [[-> _] | (-> & Hm & _)]]]]];
    try (rewrite markup_of_app, IH; reflexivity).
  cbn [markup_of]. rewrite IH.
  unfold is_markup in Hm. unfold is_structural.
  apply orb_false_iff in Hm. destruct Hm as [Hm _]. rewrite Hm. reflexivity.
Qed.

Lemma concat_cons (sep x : string) (l : list string) :
  String.concat sep (x :: l)
  = match l with
    | [] => x
    | _ => (x ++ sep ++ String.concat sep l)%string
    end.
Proof. destruct l; reflexivity. Qed.

(** The structural characters of a joined list depend on the number of
    its entries only, when those of each entry are always the same. *)
Lemma markup_concat_map {X : Type} (sep : string) (f : X -> string)
  (l : list X) : forall l' : list X,
  (forall x y, markup_of (f x) = markup_of (f y)) ->
  List.length l = List.length l' ->
  markup_of (String.concat sep (map f l)) = markup_of (String.concat sep (map f l')).
Proof.
  induction l as [ | x l IH]; intros [ | y l'] Hf Hl; try discriminate Hl.
  - reflexivity.
  - injection Hl as Hl. cbn [map]. rewrite !concat_cons.
    destruct l as [ | x1 l], l' as [ | y1 l']; try discriminate Hl; cbn [map].
    + apply Hf.
    + rewrite !markup_of_app, (Hf x y).
      do 2 f_equal. apply (IH (y1 :: l') Hf Hl).
Qed.

Lemma concat_map_nonempty {X : Type} (sep : string) (f : X -> string) (l : list X) :
  (forall x, Js.nonempty (f x) = true) ->
  Js.nonempty (String.concat sep (map f l)) = negb (List.length l =? 0)%nat.
Proof.
  intros Hf. destruct l as [ | x l]; [ reflexivity | ].
  cbn [map]. rewrite concat_cons. specialize (Hf x).
  destruct (map f l); destruct (f x); try discriminate; reflexivity.
Qed.

Section Rendering.

Variable encodeURI : string -> string.

(** The host's [encodeURI] escapes angle brackets and double quotes. *)
Hypothesis encodeURI_escapes : forall u, markup_of (encodeURI u) = EmptyString.

Lemma markup_render_change (c c' : string) :
  markup_of (render_change c) = markup_of (render_change c').
Proof.
  unfold render_change. rewrite !markup_of_app, !markup_of_escapeHtml. reflexivity.
Qed.

Lemma markup_render_link (l l' : string * string) :
  markup_of (render_link encodeURI l) = markup_of (render_link encodeURI l').
Proof.
  unfold render_link.
  rewrite !markup_of_app, !markup_of_escapeHtml, !encodeURI_escapes. reflexivity.
Qed.

Lemma markup_render_labels (it it' : release) :
  Js.nonempty (text (channel it)) = Js.nonempty (text (channel it')) ->
  match shown_build (build it) with Some _ => true | None => false end
  = match shown_build (build it') with Some _ => true | None => false end ->
  markup_of (render_labels it) = markup_of (render_labels it').
Proof.
  intros Hc Hb. unfold render_labels, Js.join. cbn [String.concat].
  rewrite !markup_of_app, Hc. f_equal; [ | f_equal ].
  - destruct (Js.nonempty (text (channel it'))); [ | reflexivity ].
    rewrite !markup_of_app, !markup_of_escapeHtml. reflexivity.
  - destruct (shown_build (build it)) as [b | ],
      (shown_build (build it')) as [b' | ];
      [ | discriminate Hb | discriminate Hb | reflexivity ].
    rewrite !markup_of_app, !markup_of_escapeHtml. reflexivity.
Qed.

(** X16: no text of a record becomes markup: the angle brackets and
    double quotes of a rendered row are those of the row of any other
    record of the same shape (a channel to show or none, a build or
    none, as many changes, as many links), whatever the texts are. *)
Theorem render_row_markup (it it' : release) :
  shape it = shape it' ->
  markup_of (render_row encodeURI it) = markup_of (render_row encodeURI it').
Proof.
  unfold shape. intros [= Hc Hb Hch Hl].
  assert (markup_of (render_changes it) = markup_of (render_changes it')) as Ech
      by (apply markup_concat_map; [ apply markup_render_change | exact Hch ]).
  assert (Js.nonempty (render_changes it) = Js.nonempty (render_changes it')) as Ene.
  { unfold render_changes.
    rewrite !concat_map_nonempty, Hch by reflexivity. reflexivity. }
  assert (markup_of (render_links encodeURI it)
          = markup_of (render_links encodeURI it')) as El
      by (apply markup_concat_map; [ apply markup_render_link | exact Hl ]).
  unfold render_row.
  rewrite !markup_of_app, !markup_of_escapeHtml, El,
    (markup_render_labels it it' Hc Hb), Ene.
  destruct (Js.nonempty (render_changes it')); [ | reflexivity ].
  rewrite !markup_of_app, Ech. reflexivity.
Qed.

(** X17: the table shows the row [No matching releases.] exactly when
    the view is empty; otherwise it shows the rows of the view. *)
Theorem render_placeholder (st : state) :
  (tbody (render encodeURI st) = no_matching_releases <-> filtered st = []) /\
  (filtered st <> [] ->
   tbody (render encodeURI st)
   = String.concat "" (map (render_row encodeURI) (filtered st))).
Proof.
  unfold render. cbn [tbody].
  destruct (filtered st) as [ | x l].
  - split; [ split; reflexivity | intros H; elim H; reflexivity ].
  - cbn [map]. rewrite concat_cons.
    assert (exists r, render_row encodeURI x
                      = String "<" (String "t" (String "r" (String ">"
                          (String "010" r))))) as [r Er]
        by (eexists; reflexivity).
    rewrite Er.
    split; [ split; intros H | intros _ ].
    + destruct (map (render_row encodeURI) l); discriminate H.
    + discriminate H.
    + destruct (map (render_row encodeURI) l); reflexivity.
Qed.

End Rendering.

Lemma host_encode_unit (c : ascii) : markup_of (Host.encode_unit c) = EmptyString.
Proof.
  destruct c as [[ | ] [ | ] [ | ] [ | ] [ | ] [ | ] [ | ] [ | ]]; reflexivity.
Qed.

Lemma host_encodeURI_escapes (u : string) : markup_of (Host.encodeURI u) = EmptyString.
Proof.
  induction u as [ | c u IH]; [ reflexivity | ].
  cbn [Host.encodeURI]. rewrite markup_of_app, host_encode_unit, IH. reflexivity.
Qed.

Lemma render_row_markup_witness :
  markup_of
    (render_row Host.encodeURI
       {| version := Some (TStr "<b>2.0</b>"); build := Some (BStr "7>6");
          date := Some (TStr "2024-01-01"); channel := Some (TStr "<i>");
          changes := Some ["</li></ul><script>"%string];
          links := Some [("<a>"%string, "x y<z>"%string)];
          tags := None |})
  = markup_of
      (render_row Host.encodeURI
         {| version := None; build := Some (BNum 1);
            date := None; channel := Some (TStr "stable");
            changes := Some ["one"%string];
            links := Some [("site"%string, "https://example.org/"%string)];
            tags := None |}).
Proof.
  apply (render_row_markup Host.encodeURI host_encodeURI_escapes).
  reflexivity.
Defined.
